(** * Crawler service: a shallow embedding of [app/components/crawler/service.py]

  The development follows the layout of the Python module:
  - [Py]: the few Python built-ins the service relies on (exceptions as
    values, string helpers, int-to-float conversion, slices, tuple order);
  - [Visited]: the visited-set critical section of [_worker];
  - [Scorer]: [_url_entropy] and [_get_best_links];
  - [Robots]: [_get_robots_parser] and [is_allowed];
  - [Worker]: the loop of [_worker], one move per suspension point, and the
    pool of workers under a schedule;
  - [Orchestrator]: [crawl_url].

  Python [float] is IEEE binary64, i.e. Rocq's primitive [float]; Python
  [int] is [Z]; a Python [set] of strings is a [gset string]; the asyncio
  queues are lists (append at the back, take from the front). *)

From Stdlib Require Import ZArith Ascii String Uint63 Floats.
From Stdlib Require Import Sorted Permutation.
From stdpp Require Import base decidable list strings gmap sets sorting pretty.

Set Warnings "-inexact-float,-register-all".

Local Open Scope string_scope.
Local Open Scope Z_scope.

(* ===================================================================== *)
(** ** Python built-ins *)
(* ===================================================================== *)
Module Py.

(** A raised exception, carrying [str(e)]. *)
Record exn := Exn { str_of_exn : string }.

(** The outcome of a call that may raise. *)
Inductive result (A : Type) : Type :=
| Ok (a : A)
| Raise (e : exn).
Arguments Ok {A} a.
Arguments Raise {A} e.

Definition bind {A B} (r : result A) (k : A → result B) : result B :=
  match r with
  | Ok a => k a
  | Raise e => Raise e
  end.

Definition is_ok {A} (r : result A) : bool :=
  match r with Ok _ => true | Raise _ => false end.

(** [float(n)] for a Python int, as the service uses it: on counts, lengths
    and small penalties, all far below 2^53, where the conversion is exact
    (and [a / b] on such ints is the binary64 quotient of the two floats). *)
Definition float_of_Z (z : Z) : float :=
  if z <? 0 then PrimFloat.opp (PrimFloat.of_uint63 (Uint63.of_Z (- z)))
  else PrimFloat.of_uint63 (Uint63.of_Z z).

(** [True] is 1 and [False] is 0 in arithmetic. *)
Definition int_of_bool (b : bool) : Z := if b then 1 else 0.

(** [s.count(c)] for a one-character [c]. *)
Fixpoint count_char (c : ascii) (s : string) : Z :=
  match s with
  | EmptyString => 0
  | String d s' => (if decide (c = d) then 1 else 0) + count_char c s'
  end.

(** [len(s)] *)
Definition len (s : string) : Z := Z.of_nat (String.length s).

(** The characters of [s], in order. *)
Fixpoint chars (s : string) : list ascii :=
  match s with
  | EmptyString => []
  | String c s' => c :: chars s'
  end.

(** [s.split(sep)] for a one-character separator: the maximal runs of
    characters between separators, empty runs included. *)
Fixpoint split_on (sep : ascii) (s : string) : list string :=
  match s with
  | EmptyString => [EmptyString]
  | String c s' =>
      if decide (c = sep) then EmptyString :: split_on sep s'
      else match split_on sep s' with
           | [] => [String c EmptyString]
           | w :: ws => String c w :: ws
           end
  end.

(** Truthiness of a string: [filter(None, ...)] keeps the non-empty ones. *)
Definition truthy (s : string) : bool :=
  match s with EmptyString => false | _ => true end.

(** [s.startswith(p)] *)
Fixpoint startswith (p s : string) : bool :=
  match p, s with
  | EmptyString, _ => true
  | String a p', String b s' => if decide (a = b) then startswith p' s' else false
  | String _ _, EmptyString => false
  end.

(** [a < b] on strings: lexicographic by character code. *)
Fixpoint str_lt (a b : string) : bool :=
  match a, b with
  | _, EmptyString => false
  | EmptyString, String _ _ => true
  | String x a', String y b' =>
      if (N_of_ascii x <? N_of_ascii y)%N then true
      else if (N_of_ascii y <? N_of_ascii x)%N then false
      else str_lt a' b'
  end.

(** [l[:n]] with Python's reading of a negative bound. *)
Definition slice_to {A} (n : Z) (l : list A) : list A :=
  if n <? 0 then take (length l - Z.to_nat (- n))%nat l
  else take (Z.to_nat n) l.

End Py.
Export Py.

(* ===================================================================== *)
(** ** The visited registry *)
(* ===================================================================== *)
Module Visited.

(** The critical section of [_worker]:
<<
    async with visited_lock:
        if url in visited:
            queue.task_done()
            continue
        visited.add(url)
>>
    The boolean tells the caller whether to go on and fetch. *)
Definition check_and_mark (visited : gset string) (url : string)
  : bool * gset string :=
  if decide (url ∈ visited) then (false, visited)
  else (true, {[url]} ∪ visited).

(** Any number of callers, in the order in which they hold the lock. *)
Fixpoint check_and_mark_all (visited : gset string) (urls : list string)
  : list bool * gset string :=
  match urls with
  | [] => ([], visited)
  | u :: us =>
      let '(b, v') := check_and_mark visited u in
      let '(bs, v'') := check_and_mark_all v' us in
      (b :: bs, v'')
  end.

(** The URLs for which the corresponding call answered [true]. *)
Definition granted (urls : list string) (answers : list bool) : list string :=
  (filter (λ p, p.2 = true) (zip urls answers)).*1.

End Visited.

(* ===================================================================== *)
(** ** The libraries the service calls *)
(* ===================================================================== *)
Module Lib.

(** What the service reads of [urlparse(url)]. *)
Record ParseResult := { scheme : string; netloc : string; path : string }.

(** The collaborators outside the repository, each as the function of its
    arguments that the service observes; one that may raise returns a
    [result]. *)
Record Env := {
  (** [math.log2] *)
  log2 : float → float;
  (** [difflib.SequenceMatcher(None, a, b).ratio()] *)
  ratio : string → string → float;
  (** [urllib.parse.urlparse]; raises [ValueError] on a malformed netloc *)
  urlparse : string → result ParseResult;
  (** [urllib.parse.urljoin(base, href)] *)
  urljoin : string → string → result string;
  (** [requests.get(url, timeout=5).text] *)
  http_get : string → result string;
  (** the entries a [RobotFileParser] holds *)
  Rules : Type;
  no_rules : Rules;
  (** [rp.parse(text.splitlines())]: the entries read, and the exception if
      the parse stopped on one *)
  robots_parse : string → Rules * option exn;
  (** the rule matching of [can_fetch("*", url)] once a file was read *)
  rules_allow : Rules → string → result bool;
  (** [page.goto(url, ...)], [page.title()] and
      [page.evaluate("document.body.innerText")]: title and content *)
  goto_page : string → result (string * string);
  (** [page.content()] parsed by BeautifulSoup: the [href] of every
      [<a href=...>] of the page at this URL, in document order *)
  page_hrefs : string → result (list string);
  (** [str(uuid.uuid4())] *)
  new_session_id : string;
  (** [(end_time - start_time).total_seconds()] *)
  elapsed_seconds : float;
  (** [round(x, 2)] *)
  round2 : float → float;
  (** [os.path.join] *)
  path_join : string → string → string;
  (** [start_time.isoformat()] *)
  start_iso : string;
  (** [datetime.now().isoformat()] at the insertion of the n-th row *)
  now_iso : nat → string;
}.

End Lib.
Export Lib.

(* ===================================================================== *)
(** ** Smart URL scoring *)
(* ===================================================================== *)
Module Scorer.

Section WithEnv.
Context (E : Env).

(** [_url_entropy]:
<<
    probs = [url.count(c)/len(url) for c in set(url)]
    return -sum(p * math.log2(p) for p in probs)
>>
    [set(url)] is the set of the characters of [url], iterated in the order
    [elements] gives; [sum] adds from the left, starting at 0. *)
Definition char_set (url : string) : gset ascii := list_to_set (chars url).

Definition probs (url : string) : list float :=
  (λ c, PrimFloat.div (float_of_Z (count_char c url)) (float_of_Z (len url)))
    <$> elements (char_set url).

Definition py_sum (xs : list float) : float :=
  fold_left PrimFloat.add xs 0%float.

Definition _url_entropy (url : string) : float :=
  PrimFloat.opp (py_sum ((λ p, PrimFloat.mul p (log2 E p)) <$> probs url)).

(** [_similarity] *)
Definition _similarity (a b : string) : float := ratio E a b.

(** [len(list(filter(None, path.split("/"))))] *)
Definition path_depth (path : string) : Z :=
  Z.of_nat (length (filter (λ s, truthy s = true) (split_on "/" path))).

(** The inner loop of [_get_best_links]:
<<
    dup_penalty = 0
    for v in visited:
        if self._similarity(link, v) > 0.85:
            dup_penalty -= 5
>> *)
Definition dup_penalty (link : string) (visited : gset string) : Z :=
  fold_left
    (λ pen v, if PrimFloat.ltb 0.85%float (_similarity link v) then pen - 5 else pen)
    (elements visited) 0.

(** The body of the outer loop: the pair appended to [scored]. *)
Definition score_link (link : string) (visited : gset string)
  : result (float * string) :=
  bind (urlparse E link) (λ u,
    let depth := path_depth (path u) in
    let entropy := _url_entropy link in
    let plen := len (path u) in
    let dup := dup_penalty link visited in
    let score :=
      PrimFloat.add
        (PrimFloat.add
           (PrimFloat.add entropy
              (float_of_Z (int_of_bool ((2 <=? depth) && (depth <=? 4)) * 2)))
           (float_of_Z (int_of_bool ((20 <? plen) && (plen <? 120)) * 2)))
        (float_of_Z dup) in
    Ok (score, link)).

(** [for link in links: ... scored.append((score, link))]; the first link
    whose parse raises ends the call. *)
Fixpoint score_all (links : list string) (visited : gset string)
  : result (list (float * string)) :=
  match links with
  | [] => Ok []
  | link :: rest =>
      bind (score_link link visited) (λ p,
        bind (score_all rest visited) (λ ps, Ok (p :: ps)))
  end.

End WithEnv.

(** [a < b] on [(score, link)] tuples: the first components that are not
    [==] decide; equal scores fall through to the strings. *)
Definition tuple_lt (a b : float * string) : bool :=
  if PrimFloat.eqb a.1 b.1 then str_lt a.2 b.2 else PrimFloat.ltb a.1 b.1.

(** [scored.sort(reverse=True)]: descending, and stable (elements neither of
    which is [<] the other keep their order). Written as the stable
    insertion sort. *)
Fixpoint insert_desc (x : float * string) (l : list (float * string))
  : list (float * string) :=
  match l with
  | [] => [x]
  | y :: l' => if tuple_lt x y then y :: insert_desc x l' else x :: l
  end.

Definition sort_reverse (l : list (float * string)) : list (float * string) :=
  foldr insert_desc [] l.

(** [_get_best_links(links, visited, limit=5)]:
<<
    scored.sort(reverse=True)
    return [x[1] for x in scored[:limit]]
>> *)
Definition _get_best_links (E : Env) (links : list string)
  (visited : gset string) (limit : Z) : result (list string) :=
  bind (score_all E links visited) (λ scored,
    Ok ((slice_to limit (sort_reverse scored)).*2)).

Definition default_limit : Z := 5.

(** The ordering the specification words describe: descending by score
    alone, candidates of equal score in discovery order. *)
Definition score_lt (a b : float * string) : bool := PrimFloat.ltb a.1 b.1.

Fixpoint spec_insert_by_score (x : float * string) (l : list (float * string))
  : list (float * string) :=
  match l with
  | [] => [x]
  | y :: l' => if score_lt x y then y :: spec_insert_by_score x l' else x :: l
  end.

Definition spec_stable_by_score (E : Env) (links : list string)
  (visited : gset string) (limit : Z) : result (list string) :=
  bind (score_all E links visited) (λ scored,
    Ok ((slice_to limit (foldr spec_insert_by_score [] scored)).*2)).

End Scorer.

(* ===================================================================== *)
(** ** Robots *)
(* ===================================================================== *)
Module Robots.

Section WithEnv.
Context (E : Env).

(** The fields of [urllib.robotparser.RobotFileParser] that [can_fetch]
    reads; [last_checked] is kept as "is non-zero". *)
Record RobotFileParser := {
  entries : Rules E;
  disallow_all : bool;
  allow_all : bool;
  last_checked : bool;
}.

(** [urllib.robotparser.RobotFileParser()] *)
Definition new_parser : RobotFileParser :=
  {| entries := no_rules E; disallow_all := false; allow_all := false;
     last_checked := false |}.

(** [f"{parsed.scheme}://{parsed.netloc}/robots.txt"] *)
Definition robots_url (parsed : ParseResult) : string :=
  scheme parsed +:+ "://" +:+ netloc parsed +:+ "/robots.txt".

(** [_get_robots_parser]:
<<
    parsed = urlparse(url)
    robots = f"{parsed.scheme}://{parsed.netloc}/robots.txt"
    rp = urllib.robotparser.RobotFileParser()
    try:
        r = requests.get(robots, timeout=5)
        rp.parse(r.text.splitlines())
    except:
        rp.allow_all = True
    return rp
>>
    [parse] stamps [last_checked] before it reads the first line, so the
    stamp and the entries read so far stay when it raises. *)
Definition _get_robots_parser (url : string) : result RobotFileParser :=
  bind (urlparse E url) (λ parsed,
    let rp := new_parser in
    match http_get E (robots_url parsed) with
    | Raise _ =>
        Ok {| entries := entries rp; disallow_all := disallow_all rp;
              allow_all := true; last_checked := last_checked rp |}
    | Ok text =>
        match robots_parse E text with
        | (rules, None) =>
            Ok {| entries := rules; disallow_all := disallow_all rp;
                  allow_all := allow_all rp; last_checked := true |}
        | (rules, Some _) =>
            Ok {| entries := rules; disallow_all := disallow_all rp;
                  allow_all := true; last_checked := true |}
        end
    end).

(** [RobotFileParser.can_fetch("*", url)]: the three flags first, the rule
    matching (which parses and quotes the URL, and may raise) after. *)
Definition can_fetch (rp : RobotFileParser) (url : string) : result bool :=
  if disallow_all rp then Ok false
  else if allow_all rp then Ok true
  else if negb (last_checked rp) then Ok false
  else rules_allow E (entries rp) url.

(** [is_allowed]:
<<
    try:
        return rp.can_fetch("*", url)
    except:
        return True
>> *)
Definition is_allowed (url : string) (rp : RobotFileParser) : bool :=
  match can_fetch rp url with
  | Ok b => b
  | Raise _ => true
  end.

End WithEnv.

Arguments entries {E} _.
Arguments disallow_all {E} _.
Arguments allow_all {E} _.
Arguments last_checked {E} _.

End Robots.

(* ===================================================================== *)
(** ** The fetch worker *)
(* ===================================================================== *)
Module Worker.
Import Visited Scorer Robots.

(** An entry of the frontier queue: [(url, depth, max_depth)]. *)
Record FrontierItem := {
  item_url : string;
  item_depth : Z;
  item_max_depth : Z;
}.

(** An entry of [db_queue]:
    [(session_id, url, title, content, depth, status)]. *)
Record CrawlResult := {
  res_session : string;
  res_url : string;
  res_title : string;
  res_content : string;
  res_depth : Z;
  res_status : string;
}.

(** What the workers share. [queue] holds [None] for the shutdown sentinel;
    [unfinished] is the queue's count of items put and not yet marked done.
    [goto_log] and [dequeued] record, for the statements below, the URLs
    handed to [page.goto] and the number of items taken off the queue. *)
Record Shared := {
  visited : gset string;
  queue : list (option FrontierItem);
  unfinished : Z;
  db_queue : list CrawlResult;
  goto_log : list string;
  dequeued : nat;
}.

(** Where a worker stands between two suspension points of its coroutine. *)
Inductive Phase :=
| Idle                                    (* at [await queue.get()] *)
| Fetching (it : FrontierItem)            (* at [await page.goto(...)] *)
| Extracting (it : FrontierItem)          (* at [await page.content()] *)
| Exited.                                 (* past the loop *)

(** [await queue.put(x)] on the unbounded frontier. *)
Definition queue_put (x : option FrontierItem) (sh : Shared) : Shared :=
  {| visited := visited sh; queue := queue sh ++ [x];
     unfinished := unfinished sh + 1; db_queue := db_queue sh;
     goto_log := goto_log sh; dequeued := dequeued sh |}.

(** [queue.task_done()] *)
Definition task_done (sh : Shared) : Shared :=
  {| visited := visited sh; queue := queue sh;
     unfinished := unfinished sh - 1; db_queue := db_queue sh;
     goto_log := goto_log sh; dequeued := dequeued sh |}.

(** [await db_queue.put(r)] *)
Definition db_put (r : CrawlResult) (sh : Shared) : Shared :=
  {| visited := visited sh; queue := queue sh;
     unfinished := unfinished sh; db_queue := db_queue sh ++ [r];
     goto_log := goto_log sh; dequeued := dequeued sh |}.

Section WithEnv.
Context (E : Env) (session_id : string) (rp : RobotFileParser E).

(** The record of the [except] branch:
    [(session_id, url, "Error", str(e), depth, "failed")]. *)
Definition failed_result (it : FrontierItem) (e : exn) : CrawlResult :=
  {| res_session := session_id; res_url := item_url it; res_title := "Error";
     res_content := str_of_exn e; res_depth := item_depth it;
     res_status := "failed" |}.

(** The record put after a fetch:
    [(session_id, url, title, content, depth, "success")]. *)
Definition success_result (it : FrontierItem) (title content : string)
  : CrawlResult :=
  {| res_session := session_id; res_url := item_url it; res_title := title;
     res_content := content; res_depth := item_depth it;
     res_status := "success" |}.

(** [except Exception as e: await db_queue.put(...)], then
    [queue.task_done()] and back to the head of the loop. *)
Definition on_exception (it : FrontierItem) (e : exn) (sh : Shared)
  : Phase * Shared :=
  (Idle, task_done (db_put (failed_result it e) sh)).

(** The test of one anchor:
<<
    full = urljoin(url, a["href"])
    if full.startswith("http") and urlparse(full).netloc == urlparse(url).netloc:
        if self.is_allowed(full, rp):
            discovered.append(full)
>>
    [Ok None] when the link is not kept. *)
Definition keep_link (url href : string) : result (option string) :=
  bind (urljoin E url href) (λ full,
    if startswith "http" full then
      bind (urlparse E full) (λ pf,
        bind (urlparse E url) (λ pu,
          if decide (netloc pf = netloc pu) then
            if is_allowed E full rp then Ok (Some full) else Ok None
          else Ok None))
    else Ok None).

(** [for a in soup.find_all("a", href=True): ...] *)
Fixpoint discover_from (url : string) (hrefs : list string)
  : result (list string) :=
  match hrefs with
  | [] => Ok []
  | h :: rest =>
      bind (keep_link url h) (λ k,
        bind (discover_from url rest) (λ ds,
          Ok (match k with Some full => full :: ds | None => ds end)))
  end.

(** [list(set(discovered))] *)
Definition dedup (discovered : list string) : list string :=
  elements (list_to_set discovered : gset string).

(** The choice of targets:
<<
    if depth < 2:
        targets = list(set(discovered))[:50]
    else:
        async with visited_lock:
            targets = self._get_best_links(list(set(discovered)), visited)
>> *)
Definition select_targets (depth : Z) (discovered : list string)
  (vis : gset string) : result (list string) :=
  if depth <? 2 then Ok (slice_to 50 (dedup discovered))
  else _get_best_links E (dedup discovered) vis default_limit.

(** [for t in targets: await queue.put((t, depth + 1, max_depth))] *)
Definition child_of (it : FrontierItem) (t : string) : FrontierItem :=
  {| item_url := t; item_depth := item_depth it + 1;
     item_max_depth := item_max_depth it |}.

Definition enqueue_children (it : FrontierItem) (targets : list string)
  (sh : Shared) : Shared :=
  fold_left (λ s t, queue_put (Some (child_of it t)) s) targets sh.

(** The links part of the [try] body, from [page.content()] to the last
    [queue.put]: the targets, or the exception that left the body. *)
Definition extract_targets (it : FrontierItem) (vis : gset string)
  : result (list string) :=
  bind (page_hrefs E (item_url it)) (λ hrefs,
    bind (discover_from (item_url it) hrefs) (λ discovered,
      select_targets (item_depth it) discovered vis)).

(** One move of a worker, from one suspension point to the next. *)
Definition worker_step (w : Phase) (sh : Shared) : Phase * Shared :=
  match w with
  | Exited => (Exited, sh)
  | Idle =>
      match queue sh with
      | [] => (Idle, sh)
      | None :: q =>
          (Exited,
           task_done {| visited := visited sh; queue := q;
                        unfinished := unfinished sh; db_queue := db_queue sh;
                        goto_log := goto_log sh; dequeued := dequeued sh |})
      | Some it :: q =>
          let '(fresh, vis) := check_and_mark (visited sh) (item_url it) in
          if fresh then
            (Fetching it,
             {| visited := vis; queue := q; unfinished := unfinished sh;
                db_queue := db_queue sh;
                goto_log := goto_log sh ++ [item_url it];
                dequeued := S (dequeued sh) |})
          else
            (Idle,
             task_done {| visited := vis; queue := q;
                          unfinished := unfinished sh; db_queue := db_queue sh;
                          goto_log := goto_log sh;
                          dequeued := S (dequeued sh) |})
      end
  | Fetching it =>
      match goto_page E (item_url it) with
      | Raise e => on_exception it e sh
      | Ok (title, content) =>
          let sh1 := db_put (success_result it title content) sh in
          if item_depth it <? item_max_depth it then (Extracting it, sh1)
          else (Idle, task_done sh1)
      end
  | Extracting it =>
      match extract_targets it (visited sh) with
      | Raise e => on_exception it e sh
      | Ok targets => (Idle, task_done (enqueue_children it targets sh))
      end
  end.

(** Several moves of one worker in a row. *)
Fixpoint worker_steps (n : nat) (w : Phase) (sh : Shared) : Phase * Shared :=
  match n with
  | O => (w, sh)
  | S n' => let '(w', sh') := worker_step w sh in worker_steps n' w' sh'
  end.

(** The pool: the phase of every worker and the shared state. A schedule
    names, move after move, the worker that runs next. *)
Definition Pool : Type := list Phase * Shared.

Definition pool_step (i : nat) (p : Pool) : Pool :=
  match p.1 !! i with
  | None => p
  | Some w => let '(w', sh') := worker_step w p.2 in (<[i := w']> p.1, sh')
  end.

Definition run_schedule (sched : list nat) (p : Pool) : Pool :=
  fold_left (λ p i, pool_step i p) sched p.

End WithEnv.

End Worker.

(* ===================================================================== *)
(** ** The entry point *)
(* ===================================================================== *)
Module Orchestrator.
Import Visited Scorer Robots Worker.

(** The Python values a summary holds. *)
Inductive pyval :=
| PStr (s : string)
| PInt (z : Z)
| PFloat (f : float)
| PList (l : list pyval)
| PDict (d : list (string * pyval)).

(** A dict literal, as its items in the order written. *)
Definition pydict : Type := list (string * pyval).

(** [k in d] *)
Definition has_key (k : string) (d : pydict) : bool :=
  bool_decide (k ∈ d.*1).

(** A row of the table [crawled_pages] of [app/database.py]. *)
Record Row := {
  row_id : Z;
  row_result : CrawlResult;
  row_timestamp : string;
}.

Definition nl : string := String (ascii_of_nat 10) EmptyString.

Section WithEnv.
Context (E : Env).

(** [insert_page_async]: one [INSERT], the id from [AUTOINCREMENT]. *)
Definition insert_page_async (db : list Row) (r : CrawlResult) : list Row :=
  db ++ [{| row_id := Z.of_nat (length db) + 1; row_result := r;
            row_timestamp := now_iso E (length db) |}].

(** [_db_writer]: every item of [db_queue], in arrival order, until the
    sentinel. *)
Definition _db_writer (db : list Row) (items : list CrawlResult) : list Row :=
  fold_left insert_page_async items db.

(** [get_all_pages]: [SELECT * FROM crawled_pages WHERE session_id=?] *)
Definition get_all_pages (session_id : string) (db : list Row) : list Row :=
  filter (λ r, res_session (row_result r) = session_id) db.

(** [dict(r)] *)
Definition row_dict (r : Row) : pyval :=
  PDict [("id", PInt (row_id r));
         ("session_id", PStr (res_session (row_result r)));
         ("url", PStr (res_url (row_result r)));
         ("title", PStr (res_title (row_result r)));
         ("content", PStr (res_content (row_result r)));
         ("depth", PInt (res_depth (row_result r)));
         ("status", PStr (res_status (row_result r)));
         ("timestamp", PStr (row_timestamp r))].

(** [for r in rows: full += f"\n\n== {r['title']} ==\n{r['content']}"] *)
Definition full_text (rows : list Row) : string :=
  fold_left
    (λ full r, full +:+ nl +:+ nl +:+ "== " +:+ res_title (row_result r)
                    +:+ " ==" +:+ nl +:+ res_content (row_result r))
    rows "".

(** What a call leaves behind: the table, the files written, and the URLs
    handed to [page.goto]. *)
Record Effects := {
  db_after : list Row;
  files_written : list (string * pyval);
  pages_fetched : list string;
}.

(** How a call ends: it returns a dict, raises, or is still waiting in
    [queue.join()] when the schedule given to it runs out. *)
Inductive Outcome :=
| Returned (summary : pydict)
| Raised (e : exn)
| Pending.

(** [NUM = 6] *)
Definition NUM : nat := 6.

Definition empty_shared : Shared :=
  {| visited := ∅; queue := []; unfinished := 0; db_queue := [];
     goto_log := []; dequeued := 0 |}.

(** [queue.put_nowait((url, 0, max_depth if recursive else 0))] *)
Definition seed_item (url : string) (recursive : bool) (max_depth : Z)
  : FrontierItem :=
  {| item_url := url; item_depth := 0;
     item_max_depth := if recursive then max_depth else 0 |}.

(** The pool when the workers have been created and the seed is queued. *)
Definition initial_pool (url : string) (recursive : bool) (max_depth : Z)
  : Pool :=
  (replicate NUM Idle,
   queue_put (Some (seed_item url recursive max_depth)) empty_shared).

(** [for _ in workers: await queue.put(None)] and
    the gathering of the workers *)
Definition shutdown (session_id : string) (rp : RobotFileParser E) (p : Pool)
  : Pool :=
  let sh := fold_left (λ s _, queue_put None s) p.1 p.2 in
  run_schedule E session_id rp (seq 0 (length p.1)) (p.1, sh).

(** The files of [if save_folder: ...] and the list [saved_files]. *)
Definition save_reports (url session_id : string) (save_folder : option string)
  (rows : list Row) (full : string) : list (string * pyval) :=
  match save_folder with
  | Some folder =>
      if truthy folder then
        [(path_join E folder "crawl_report.json",
          PDict [("url", PStr url);
                 ("session_id", PStr session_id);
                 ("timestamp", PStr (start_iso E));
                 ("duration_seconds", PFloat (elapsed_seconds E));
                 ("pages_crawled", PInt (Z.of_nat (length rows)));
                 ("pages", PList (row_dict <$> rows))]);
         (path_join E folder "crawled_content.txt", PStr full)]
      else []
  | None => []
  end.

(** The dict of the final [return]. *)
Definition success_summary (url session_id : string) (rows : list Row)
  (full : string) (saved_files : list string) : pydict :=
  [("url", PStr url);
   ("status", PStr "success");
   ("session_id", PStr session_id);
   ("pages_crawled", PInt (Z.of_nat (length rows)));
   ("full_text", PStr full);
   ("content_preview", PStr (String.substring 0 500 full +:+ "..."));
   ("links", PDict [("allowed", PList []); ("blocked", PList [])]);
   ("duration", PFloat (round2 E (elapsed_seconds E)));
   ("crawl_only_duration", PFloat (round2 E (elapsed_seconds E)));
   ("saved_files", PList (PStr <$> saved_files));
   ("database_records", PList (row_dict <$> rows))].

(** [crawl_url]. [db] is the table before the call; [sched] is the order in
    which the event loop runs the workers while the caller waits in
    [queue.join()]. *)
Definition crawl_url (db : list Row) (sched : list nat) (url : string)
  (save_folder : option string) (simulate recursive : bool) (max_depth : Z)
  : Outcome * Effects :=
  let session_id := new_session_id E in
  match _get_robots_parser E url with
  | Raise e =>
      (Raised e, {| db_after := db; files_written := []; pages_fetched := [] |})
  | Ok rp =>
      if negb (is_allowed E url rp) then
        (Returned [("status", PStr "blocked")],
         {| db_after := db; files_written := []; pages_fetched := [] |})
      else
        let p := run_schedule E session_id rp sched
                   (initial_pool url recursive max_depth) in
        if unfinished p.2 =? 0 then
          let p' := shutdown session_id rp p in
          let db' := _db_writer db (db_queue p'.2) in
          let rows := get_all_pages session_id db' in
          let full := full_text rows in
          let files := save_reports url session_id save_folder rows full in
          (Returned (success_summary url session_id rows full files.*1),
           {| db_after := db'; files_written := files;
              pages_fetched := goto_log p'.2 |})
        else
          (Pending,
           {| db_after := _db_writer db (db_queue p.2); files_written := [];
              pages_fetched := goto_log p.2 |})
  end.

End WithEnv.

End Orchestrator.

(* ===================================================================== *)
(** ** A concrete environment for the examples *)
(* ===================================================================== *)
Module Demo.
Import Visited Scorer Robots Worker Orchestrator.

(** [math.log2] at the exact powers of two, where it is exact: the exponent
    of [x = 0.5 * 2^k] less one. Elsewhere this stand-in answers NaN, and the
    examples never ask. *)
Definition log2_pow2 (x : float) : float :=
  let '(m, e) := PrimFloat.frshiftexp x in
  if PrimFloat.eqb m 0.5%float
  then float_of_Z (Uint63.to_Z e - FloatOps.shift - 1)
  else PrimFloat.nan.

(** The part of [s] before the first [c], and the rest from [c] on. *)
Fixpoint span_until (c : ascii) (s : string) : string * string :=
  match s with
  | EmptyString => (EmptyString, EmptyString)
  | String d s' =>
      if decide (c = d) then (EmptyString, s)
      else let '(a, b) := span_until c s' in (String d a, b)
  end.

Fixpoint has_char (c : ascii) (s : string) : bool :=
  match s with
  | EmptyString => false
  | String d s' => if decide (c = d) then true else has_char c s'
  end.

(** [urlparse] on [scheme://netloc/path] with no query, fragment or
    parameters, and on a string with no scheme (all of it is the path). An
    opening bracket in the netloc with no closing one is the malformed IPv6
    literal for which [urlparse] raises [ValueError]. *)
Definition plain_urlparse (s : string) : result ParseResult :=
  let '(sch, rest) := span_until ":" s in
  if startswith "://" rest then
    let '(host, pth) :=
      span_until "/" (String.substring 3 (String.length rest - 3) rest) in
    if has_char "[" host && negb (has_char "]" host)
    then Raise (Exn "Invalid IPv6 URL")
    else Ok {| scheme := sch; netloc := host; path := pth |}
  else Ok {| scheme := ""; netloc := ""; path := s |}.

(** [urljoin] on an absolute [href] (it is parsed, and returned as it is) and
    on a root-relative one (it replaces the path of [base]). *)
Definition plain_urljoin (base href : string) : result string :=
  if startswith "http" href then
    bind (plain_urlparse href) (λ _, Ok href)
  else
    bind (plain_urlparse base) (λ b,
      Ok (scheme b +:+ "://" +:+ netloc b +:+ href)).

(** A robots file read as the list of its [Disallow:] paths (one group, for
    every agent). *)
Definition disallow_paths (text : string) : list string :=
  omap (λ line,
          if startswith "Disallow: " line
          then Some (String.substring 10 (String.length line - 10) line)
          else None)
       (split_on (ascii_of_nat 10) text).

Definition plain_rules_allow (rules : list string) (url : string)
  : result bool :=
  bind (plain_urlparse url) (λ u,
    let p := if truthy (path u) then path u else "/" in
    Ok (negb (existsb (λ r, truthy r && startswith r p) rules))).

(** An environment from a robots response and a site. The similarity is a
    stand-in (1 on equal strings, 0 otherwise). *)
Definition env (robots : result string)
  (pages : string → result (string * string))
  (hrefs : string → result (list string)) : Env :=
  {| log2 := log2_pow2;
     ratio := λ a b, if decide (a = b) then 1%float else 0%float;
     urlparse := plain_urlparse;
     urljoin := plain_urljoin;
     http_get := λ _, robots;
     Rules := list string;
     no_rules := [];
     robots_parse := λ text, (disallow_paths text, None);
     rules_allow := plain_rules_allow;
     goto_page := pages;
     page_hrefs := hrefs;
     new_session_id := "00000000-0000-4000-8000-000000000001";
     elapsed_seconds := 1.5%float;
     round2 := λ x, x;
     path_join := λ a b, a +:+ "/" +:+ b;
     start_iso := "2024-01-01T00:00:00";
     now_iso := λ _, "2024-01-01T00:00:01" |}.

(** A one-page site that links to nothing. *)
Definition one_page (url : string) : result (string * string) :=
  Ok ("Home", "hello").

Definition no_links (url : string) : result (list string) := Ok [].

(** A robots file that closes the whole site. *)
Definition robots_closed : string :=
  "User-agent: *" +:+ Orchestrator.nl +:+ "Disallow: /".

Definition scoring_env : Env := env (Ok "") one_page no_links.

End Demo.

(* ===================================================================== *)
(** * Properties *)
(* ===================================================================== *)

(** ** The visited registry *)
Section VisitedFacts.
Import Visited.

Lemma granted_cons_true u us bs :
  granted (u :: us) (true :: bs) = u :: granted us bs.
Proof. reflexivity. Qed.

Lemma granted_cons_false u us bs :
  granted (u :: us) (false :: bs) = granted us bs.
Proof. reflexivity. Qed.

(** Every URL that is granted was absent when the calls began, and no URL
    is granted twice. *)
Lemma granted_fresh_NoDup (urls : list string) : ∀ visited : gset string,
  NoDup (granted urls (check_and_mark_all visited urls).1) ∧
  ∀ u, u ∈ granted urls (check_and_mark_all visited urls).1 → u ∉ visited.
Proof.
  induction urls as [|u us IH]; intros visited; simpl.
  - split; [constructor | intros u Hu; inversion Hu].
  - unfold check_and_mark. destruct (decide (u ∈ visited)) as [Hin|Hout].
    + destruct (check_and_mark_all visited us) as [bs v''] eqn:Hrest.
      specialize (IH visited). rewrite Hrest in IH. simpl in *.
      rewrite granted_cons_false. exact IH.
    + destruct (check_and_mark_all ({[u]} ∪ visited) us) as [bs v''] eqn:Hrest.
      specialize (IH ({[u]} ∪ visited)). rewrite Hrest in IH. simpl in *.
      rewrite granted_cons_true. destruct IH as [Hnd Hfresh]. split.
      * constructor; [|exact Hnd]. intros Hu. apply Hfresh in Hu. set_solver.
      * intros x Hx. apply elem_of_cons in Hx as [->|Hx]; [exact Hout|].
        apply Hfresh in Hx. set_solver.
Qed.

Lemma filter_eq_absent (l : list string) (u : string) :
  u ∉ l → filter (λ x, x = u) l = [].
Proof.
  induction l as [|y l IH]; intros Hu; [reflexivity|].
  rewrite filter_cons. apply not_elem_of_cons in Hu as [Hne Hu].
  destruct (decide (y = u)); [congruence | auto].
Qed.

Lemma NoDup_filter_eq_le (l : list string) (u : string) :
  NoDup l → (length (filter (λ x, x = u) l) ≤ 1)%nat.
Proof.
  induction 1 as [|x l Hx Hnd IH]; simpl; [lia|].
  rewrite filter_cons. destruct (decide (x = u)) as [->|Hne]; [|exact IH].
  rewrite filter_eq_absent by exact Hx. simpl. lia.
Qed.

(** C2. The critical section as one atomic operation: on an absent URL it
    answers true and the set gains the URL; on a present URL it answers false
    and the set is unchanged; and over any sequence of calls, from any
    starting set, no URL is answered true more than once. *)
Theorem C2_check_and_mark_once (visited : gset string) (url : string) :
  (url ∉ visited →
     Visited.check_and_mark visited url = (true, {[url]} ∪ visited)) ∧
  (url ∈ visited →
     Visited.check_and_mark visited url = (false, visited)) ∧
  (∀ (urls : list string) (u : string),
     NoDup (granted urls (check_and_mark_all visited urls).1) ∧
     (length (filter (λ x, x = u)
                (granted urls (check_and_mark_all visited urls).1)) ≤ 1)%nat).
Proof.
  unfold check_and_mark. repeat split.
  - intros H. destruct (decide (url ∈ visited)); [contradiction | reflexivity].
  - intros H. destruct (decide (url ∈ visited)); [reflexivity | contradiction].
  - apply granted_fresh_NoDup.
  - apply NoDup_filter_eq_le, granted_fresh_NoDup.
Qed.

End VisitedFacts.

(** ** The order of floats and of strings *)
Section OrderFacts.

(** A non-NaN float as a triple that the integers order the way [<] orders
    the floats: the class (infinities, negative, zero, positive), then the
    exponent, then the mantissa, the last two negated below zero. *)
Definition sf_key (x : spec_float) : option (Z * Z * Z) :=
  match x with
  | S754_nan => None
  | S754_infinity true => Some (-2, 0, 0)
  | S754_infinity false => Some (2, 0, 0)
  | S754_zero _ => Some (0, 0, 0)
  | S754_finite true m e => Some (-1, - e, Zneg m)
  | S754_finite false m e => Some (1, e, Zpos m)
  end.

Definition key_lt (a b : Z * Z * Z) : Prop :=
  a.1.1 < b.1.1 ∨
  (a.1.1 = b.1.1 ∧ (a.1.2 < b.1.2 ∨ (a.1.2 = b.1.2 ∧ a.2 < b.2))).

Definition fkey (x : float) : option (Z * Z * Z) := sf_key (Prim2SF x).

Ltac key_cases :=
  match goal with
  | |- _ ↔ _ =>
      split;
      [ first [ discriminate
              | intros _; eexists _, _; repeat split; simpl; lia ]
      | first [ reflexivity
              | intros (a & b & Ha & Hb & Hlt); try discriminate;
                injection Ha as <-; injection Hb as <-; simpl in Hlt;
                exfalso; lia ] ]
  end.

Lemma SFltb_key x y :
  SFltb x y = true ↔
  ∃ a b, sf_key x = Some a ∧ sf_key y = Some b ∧ key_lt a b.
Proof.
  unfold SFltb, key_lt.
  destruct x as [[]|[]| |[] m1 e1], y as [[]|[]| |[] m2 e2]; simpl;
    try key_cases;
    change (Pos.compare_cont Eq m1 m2) with (Pos.compare m1 m2);
    destruct (Z.compare_spec e1 e2); destruct (Pos.compare_spec m1 m2);
    simpl; key_cases.
Qed.

Lemma SFeqb_key x y :
  SFeqb x y = true ↔ ∃ a, sf_key x = Some a ∧ sf_key y = Some a.
Proof.
  unfold SFeqb.
  destruct x as [[]|[]| |[] m1 e1], y as [[]|[]| |[] m2 e2]; simpl;
    try (split; [ first [discriminate | intros _; eexists; split; reflexivity]
                | first [reflexivity | intros (a & Ha & Hb); congruence ] ]);
    change (Pos.compare_cont Eq m1 m2) with (Pos.compare m1 m2);
    destruct (Z.compare_spec e1 e2); destruct (Pos.compare_spec m1 m2);
    simpl;
    (split; [ first [ discriminate
                    | intros _; subst; eexists; split; reflexivity ]
            | first [ reflexivity
                    | intros (a & Ha & Hb); injection Ha as <-;
                      injection Hb as Hb1 Hb2; exfalso; lia ] ]).
Qed.

Lemma ltb_key (x y : float) :
  PrimFloat.ltb x y = true ↔
  ∃ a b, fkey x = Some a ∧ fkey y = Some b ∧ key_lt a b.
Proof. rewrite FloatAxioms.ltb_spec. apply SFltb_key. Qed.

Lemma eqb_key (x y : float) :
  PrimFloat.eqb x y = true ↔ ∃ a, fkey x = Some a ∧ fkey y = Some a.
Proof. rewrite FloatAxioms.eqb_spec. apply SFeqb_key. Qed.

Lemma not_nan_key (x : float) :
  PrimFloat.is_nan x = false ↔ ∃ a, fkey x = Some a.
Proof.
  unfold PrimFloat.is_nan. rewrite negb_false_iff, eqb_key.
  split; [intros (a & Ha & _); eauto | intros (a & Ha); eauto].
Qed.

Lemma ltb_asym (x y : float) :
  PrimFloat.ltb x y = true → PrimFloat.ltb y x = false.
Proof.
  intros H. apply not_true_is_false. intros H'.
  apply ltb_key in H as (a & b & Ha & Hb & Hab).
  apply ltb_key in H' as (b' & a' & Hb' & Ha' & Hba).
  unfold key_lt in *. simplify_eq. lia.
Qed.

Lemma eqb_sym (x y : float) : PrimFloat.eqb x y = PrimFloat.eqb y x.
Proof.
  apply eq_true_iff_eq. rewrite !eqb_key.
  split; intros (a & H1 & H2); eauto.
Qed.

Lemma ltb_trans (x y z : float) :
  PrimFloat.ltb x y = true → PrimFloat.ltb y z = true →
  PrimFloat.ltb x z = true.
Proof.
  rewrite !ltb_key. intros (a & b & Ha & Hb & Hab) (b' & c & Hb' & Hc & Hbc).
  simplify_eq. exists a, c. repeat split; try done. unfold key_lt in *. lia.
Qed.

Lemma eqb_trans (x y z : float) :
  PrimFloat.eqb x y = true → PrimFloat.eqb y z = true →
  PrimFloat.eqb x z = true.
Proof.
  rewrite !eqb_key. intros (a & Ha & Hb) (b & Hb' & Hc).
  simplify_eq. eauto.
Qed.

Lemma ltb_eqb_l (x y z : float) :
  PrimFloat.eqb x y = true → PrimFloat.ltb y z = true →
  PrimFloat.ltb x z = true.
Proof.
  rewrite eqb_key, !ltb_key. intros (a & Ha & Hb) (b & c & Hb' & Hc & Hbc).
  simplify_eq. eauto.
Qed.

Lemma ltb_eqb_r (x y z : float) :
  PrimFloat.ltb x y = true → PrimFloat.eqb y z = true →
  PrimFloat.ltb x z = true.
Proof.
  rewrite eqb_key, !ltb_key. intros (a & b & Ha & Hb & Hab) (c & Hb' & Hc).
  simplify_eq. eauto.
Qed.

(** Two floats that are not NaN are [<], [==] or [>]. *)
Lemma float_trichotomy (x y : float) :
  PrimFloat.is_nan x = false → PrimFloat.is_nan y = false →
  PrimFloat.ltb x y = true ∨ PrimFloat.eqb x y = true ∨
  PrimFloat.ltb y x = true.
Proof.
  rewrite !not_nan_key, !ltb_key, eqb_key. intros (a & Ha) (b & Hb).
  destruct a as [[a1 a2] a3], b as [[b1 b2] b3].
  destruct (decide (key_lt (a1, a2, a3) (b1, b2, b3))) as [Hlt|Hnlt];
    [left; eauto 6|].
  destruct (decide (key_lt (b1, b2, b3) (a1, a2, a3))) as [Hgt|Hngt];
    [right; right; eauto 6|].
  right; left. exists (a1, a2, a3). split; [done|]. rewrite Hb. f_equal.
  unfold key_lt in *. simpl in *.
  assert (a1 = b1) by lia. assert (a2 = b2) by lia. assert (a3 = b3) by lia.
  congruence.
Qed.

Lemma ltb_not_eqb (x y : float) :
  PrimFloat.ltb x y = true → PrimFloat.eqb x y = false.
Proof.
  intros H. apply not_true_is_false. intros H'.
  apply ltb_key in H as (a & b & Ha & Hb & Hab).
  apply eqb_key in H' as (c & Hc & Hc').
  unfold key_lt in *. simplify_eq. lia.
Qed.

(** Strings. *)
Lemma str_lt_irrefl (a : string) : str_lt a a = false.
Proof.
  induction a as [|x a IH]; simpl; [done|].
  rewrite N.ltb_irrefl. exact IH.
Qed.

Lemma str_lt_asym (a : string) : ∀ b,
  str_lt a b = true → str_lt b a = false.
Proof.
  induction a as [|x a IH]; intros [|y b]; simpl; try done.
  destruct (N.ltb_spec (N_of_ascii x) (N_of_ascii y));
    destruct (N.ltb_spec (N_of_ascii y) (N_of_ascii x));
    try done; try lia. apply IH.
Qed.

Lemma str_lt_total (a : string) : ∀ b,
  str_lt a b = false → str_lt b a = false → a = b.
Proof.
  induction a as [|x a IH]; intros [|y b]; simpl; try done.
  destruct (N.ltb_spec (N_of_ascii x) (N_of_ascii y));
    destruct (N.ltb_spec (N_of_ascii y) (N_of_ascii x));
    try done.
  intros H1 H2. f_equal; [|by apply IH].
  rewrite <- (ascii_N_embedding x), <- (ascii_N_embedding y).
  f_equal. lia.
Qed.

Lemma str_ge_trans (a : string) : ∀ b c,
  str_lt a b = false → str_lt b c = false → str_lt a c = false.
Proof.
  induction a as [|x a IH]; intros [|y b] [|z c]; simpl; try done.
  destruct (N.ltb_spec (N_of_ascii x) (N_of_ascii y));
    destruct (N.ltb_spec (N_of_ascii y) (N_of_ascii x));
    destruct (N.ltb_spec (N_of_ascii y) (N_of_ascii z));
    destruct (N.ltb_spec (N_of_ascii z) (N_of_ascii y));
    destruct (N.ltb_spec (N_of_ascii x) (N_of_ascii z));
    destruct (N.ltb_spec (N_of_ascii z) (N_of_ascii x));
    try done; try lia. apply IH.
Qed.

End OrderFacts.

(** ** Link selection *)
Section ScorerFacts.
Import Scorer.

(** [a] is ranked before [b]: its score is higher, or the scores are equal
    and its URL is not the smaller string. *)
Definition ranks_before (a b : float * string) : Prop :=
  PrimFloat.ltb b.1 a.1 = true ∨
  (PrimFloat.eqb a.1 b.1 = true ∧ str_lt a.2 b.2 = false).

Definition not_nan_score (a : float * string) : Prop :=
  PrimFloat.is_nan a.1 = false.

Lemma tuple_lt_asym (a b : float * string) :
  tuple_lt a b = true → tuple_lt b a = false.
Proof.
  unfold tuple_lt. rewrite (eqb_sym b.1 a.1).
  destruct (PrimFloat.eqb a.1 b.1); [apply str_lt_asym | apply ltb_asym].
Qed.

Lemma insert_desc_perm (x : float * string) (l : list (float * string)) :
  insert_desc x l ≡ₚ x :: l.
Proof.
  induction l as [|y l IH]; simpl; [done|].
  destruct (tuple_lt x y); [|done].
  rewrite IH. apply Permutation_swap.
Qed.

Lemma sort_reverse_perm (l : list (float * string)) : sort_reverse l ≡ₚ l.
Proof.
  induction l as [|x l IH]; simpl; [done|].
  rewrite insert_desc_perm. by constructor.
Qed.

Lemma insert_desc_hd (x y : float * string) (l : list (float * string)) :
  tuple_lt x y = true →
  HdRel (λ a b, tuple_lt a b = false) y l →
  HdRel (λ a b, tuple_lt a b = false) y (insert_desc x l).
Proof.
  intros Hxy Hhd. destruct l as [|z l]; simpl.
  - constructor. by apply tuple_lt_asym.
  - destruct (tuple_lt x z).
    + constructor. by inversion Hhd.
    + constructor. by apply tuple_lt_asym.
Qed.

Lemma insert_desc_sorted (x : float * string) (l : list (float * string)) :
  Sorted (λ a b, tuple_lt a b = false) l →
  Sorted (λ a b, tuple_lt a b = false) (insert_desc x l).
Proof.
  induction 1 as [|y l Hs IH Hhd]; simpl.
  - repeat constructor.
  - destruct (tuple_lt x y) eqn:Hxy.
    + constructor; [exact IH | by apply insert_desc_hd].
    + constructor; [by constructor | by constructor].
Qed.

Lemma sort_reverse_sorted (l : list (float * string)) :
  Sorted (λ a b, tuple_lt a b = false) (sort_reverse l).
Proof.
  induction l as [|x l IH]; simpl; [constructor | by apply insert_desc_sorted].
Qed.

Lemma not_lt_ranks_before (a b : float * string) :
  not_nan_score a → not_nan_score b →
  tuple_lt a b = false → ranks_before a b.
Proof.
  unfold not_nan_score, tuple_lt, ranks_before. intros Ha Hb H.
  destruct (PrimFloat.eqb a.1 b.1) eqn:Heq; [by right|]. left.
  destruct (float_trichotomy a.1 b.1 Ha Hb) as [Hlt|[Heq'|Hgt]];
    congruence.
Qed.

#[local] Instance ranks_before_trans : Transitive ranks_before.
Proof.
  intros a b c [Hba|[Hab Hsab]] [Hcb|[Hbc Hsbc]]; unfold ranks_before.
  - left. by eapply ltb_trans.
  - left. eapply ltb_eqb_l; [|exact Hba]. by rewrite eqb_sym.
  - left. eapply ltb_eqb_r; [exact Hcb|]. by rewrite eqb_sym.
  - right. split; [by eapply eqb_trans | by eapply str_ge_trans].
Qed.

Lemma sorted_ranks_before (l : list (float * string)) :
  Forall not_nan_score l →
  Sorted (λ a b, tuple_lt a b = false) l →
  StronglySorted ranks_before l.
Proof.
  intros Hnan Hs. apply Sorted_StronglySorted; [apply _|].
  induction Hs as [|y l Hs IH Hhd]; [constructor|].
  apply Forall_cons in Hnan as [Hy Hl]. constructor; [by apply IH|].
  destruct Hhd as [|z l' Hyz]; constructor.
  apply Forall_cons in Hl as [Hz _]. by apply not_lt_ranks_before.
Qed.

Lemma score_all_links (E : Env) (links : list string) (visited : gset string) :
  ∀ scored, score_all E links visited = Ok scored → scored.*2 = links.
Proof.
  induction links as [|l links IH]; simpl; intros scored H.
  - by injection H as <-.
  - unfold score_link in H. destruct (urlparse E l) as [u|e]; [|done].
    simpl in H. destruct (score_all E links visited) as [ps|e]; [|done].
    simpl in H. injection H as <-. simpl. f_equal. by apply IH.
Qed.

Lemma slice_to_nonneg {A} (n : Z) (l : list A) :
  0 ≤ n → slice_to n l = take (Z.to_nat n) l.
Proof. intros H. unfold slice_to. destruct (Z.ltb_spec n 0); [lia|done]. Qed.

(** The call returns a prefix of a rearrangement of the candidates. *)
Lemma best_links_shape (E : Env) (links : list string) (visited : gset string)
  (limit : Z) (out : list string) :
  _get_best_links E links visited limit = Ok out →
  ∃ scored, score_all E links visited = Ok scored ∧
            out = (slice_to limit (sort_reverse scored)).*2.
Proof.
  unfold _get_best_links. destruct (score_all E links visited) as [sc|e];
    simpl; [|done]. intros H. injection H as <-. eauto.
Qed.

(** C3, as the code has it. When every candidate parses, no score is NaN and
    [limit] is not negative, [_get_best_links] returns the first [limit]
    URLs of the candidates arranged in descending order of score, candidates
    of equal score in descending order of the URL string (not in discovery
    order). *)
Theorem C3_best_links_sorted (E : Env) (links : list string)
  (visited : gset string) (limit : Z) (scored : list (float * string)) :
  score_all E links visited = Ok scored →
  Forall not_nan_score scored →
  0 ≤ limit →
  ∃ sorted : list (float * string),
    _get_best_links E links visited limit
      = Ok (take (Z.to_nat limit) sorted.*2) ∧
    sorted ≡ₚ scored ∧
    scored.*2 = links ∧
    StronglySorted ranks_before sorted.
Proof.
  intros Hsc Hnan Hlim. exists (sort_reverse scored). repeat split.
  - unfold _get_best_links. rewrite Hsc. simpl.
    rewrite slice_to_nonneg by done. by rewrite fmap_take.
  - apply sort_reverse_perm.
  - by eapply score_all_links.
  - apply sorted_ranks_before; [|apply sort_reverse_sorted].
    by rewrite sort_reverse_perm.
Qed.

Definition link_co : string := "http://a.co/a/co".
Definition link_oc : string := "http://a.co/a/oc".

Lemma C3_best_links_sorted_witness :
  ∃ sorted : list (float * string),
    _get_best_links Demo.scoring_env [link_co; link_oc] ∅ 5
      = Ok (take (Z.to_nat 5) sorted.*2) ∧
    sorted ≡ₚ [(5%float, link_co); (5%float, link_oc)] ∧
    [(5%float, link_co); (5%float, link_oc)].*2 = [link_co; link_oc] ∧
    StronglySorted ranks_before sorted.
Proof.
  apply (C3_best_links_sorted Demo.scoring_env [link_co; link_oc] ∅ 5
           [(5%float, link_co); (5%float, link_oc)]).
  - vm_compute. reflexivity.
  - repeat constructor.
  - lia.
Defined.

(** C3, as the specification words it, fails. Two candidates score 5 each;
    discovered in the order [.../a/co], [.../a/oc], they are returned in the
    order [.../a/oc], [.../a/co]: the tie goes to the larger string. *)
Lemma C3_ties_not_in_discovery_order :
  _get_best_links Demo.scoring_env [link_co; link_oc] ∅ 5
    = Ok [link_oc; link_co] ∧
  spec_stable_by_score Demo.scoring_env [link_co; link_oc] ∅ 5
    = Ok [link_co; link_oc] ∧
  _get_best_links Demo.scoring_env [link_co; link_oc] ∅ 5
    ≠ spec_stable_by_score Demo.scoring_env [link_co; link_oc] ∅ 5.
Proof.
  assert (_get_best_links Demo.scoring_env [link_co; link_oc] ∅ 5
            = Ok [link_oc; link_co]) as Hcode by (vm_compute; reflexivity).
  assert (spec_stable_by_score Demo.scoring_env [link_co; link_oc] ∅ 5
            = Ok [link_co; link_oc]) as Hspec by (vm_compute; reflexivity).
  split; [exact Hcode | split; [exact Hspec |]].
  rewrite Hcode, Hspec. discriminate.
Qed.

(** The tie, and with it the order returned, does not hang on the stand-in
    for [math.log2]: the two URLs have the same characters, hence the same
    score under any [log2] for which that score is a number. *)
Lemma tie_for_any_log2 (E : Env) (s : float) :
  urlparse E link_co = Ok {| scheme := "http"; netloc := "a.co"; path := "/a/co" |} →
  urlparse E link_oc = Ok {| scheme := "http"; netloc := "a.co"; path := "/a/oc" |} →
  score_link E link_co ∅ = Ok (s, link_co) →
  PrimFloat.is_nan s = false →
  _get_best_links E [link_co; link_oc] ∅ 5 = Ok [link_oc; link_co].
Proof.
  intros Hco Hoc Hs Hnan.
  assert (score_link E link_oc ∅ = Ok (s, link_oc)) as Hs'.
  { unfold score_link in *. rewrite Hco in Hs. rewrite Hoc. simpl in *.
    injection Hs as <-. unfold _url_entropy.
    replace (probs link_oc) with (probs link_co) by (vm_compute; reflexivity).
    reflexivity. }
  unfold _get_best_links. simpl. rewrite Hs, Hs'. simpl.
  unfold tuple_lt. simpl.
  assert (PrimFloat.eqb s s = true) as ->.
  { unfold PrimFloat.is_nan in Hnan. by apply negb_false_iff in Hnan. }
  reflexivity.
Qed.

End ScorerFacts.

(** ** The score of a candidate *)
Section ScoreFacts.
Import Scorer.

(** The number of non-empty segments of a path, read off the path itself: a
    segment starts at every character other than the slash that does not
    continue one. [in_seg] tells whether the previous character was inside a
    segment. *)
Fixpoint spec_segment_count (in_seg : bool) (path : string) : nat :=
  match path with
  | EmptyString => 0
  | String c rest =>
      if decide (c = "/"%char) then spec_segment_count false rest
      else (if in_seg then 0 else 1) + spec_segment_count true rest
  end.

(** The Shannon entropy of the characters of [url]: minus the sum, over the
    distinct characters, of [p * log2 p] with [p] the share of the
    character. *)
Definition spec_shannon_entropy (E : Env) (url : string) : float :=
  PrimFloat.opp
    (py_sum
       ((λ c, let p := PrimFloat.div (float_of_Z (count_char c url))
                                     (float_of_Z (len url)) in
              PrimFloat.mul p (log2 E p))
          <$> elements (char_set url))).

(** The visited URLs that are near-duplicates of [link]. *)
Definition spec_near_duplicates (E : Env) (link : string)
  (visited : gset string) : list string :=
  filter (λ v, PrimFloat.ltb 0.85%float (ratio E link v) = true)
         (elements visited).

(** Score = entropy + depth bonus + length bonus + duplicate penalty. *)
Definition spec_score (E : Env) (link : string) (visited : gset string)
  (path : string) : float :=
  let depth := Z.of_nat (spec_segment_count false path) in
  let depth_bonus := if bool_decide (2 ≤ depth ≤ 4) then 2 else 0 in
  let length_bonus := if bool_decide (20 < len path < 120) then 2 else 0 in
  let duplicate_penalty :=
    - 5 * Z.of_nat (length (spec_near_duplicates E link visited)) in
  PrimFloat.add
    (PrimFloat.add
       (PrimFloat.add (spec_shannon_entropy E link) (float_of_Z depth_bonus))
       (float_of_Z length_bonus))
    (float_of_Z duplicate_penalty).

Lemma split_on_segments (path : string) :
  spec_segment_count false path
    = length (filter (λ s, truthy s = true) (split_on "/" path)) ∧
  spec_segment_count true path
    = length (filter (λ s, truthy s = true) (tail (split_on "/" path))).
Proof.
  induction path as [|c rest [IHf IHt]]; simpl; [done|].
  destruct (decide (c = "/"%char)) as [->|Hne]; simpl.
  - rewrite filter_cons. simpl. destruct (decide (false = true)); [done|].
    by rewrite IHf.
  - destruct (split_on "/" rest) as [|w ws] eqn:Hsplit; simpl in *.
    + by rewrite IHt.
    + by rewrite IHt.
Qed.

Lemma path_depth_segments (path : string) :
  path_depth path = Z.of_nat (spec_segment_count false path).
Proof. unfold path_depth. by rewrite (proj1 (split_on_segments path)). Qed.

Lemma penalty_fold (P : string → bool) (l : list string) : ∀ acc : Z,
  fold_left (λ pen v, if P v then pen - 5 else pen) l acc
    = acc - 5 * Z.of_nat (length (filter (λ v, P v = true) l)).
Proof.
  induction l as [|v l IH]; intros acc; simpl; [lia|].
  rewrite IH, filter_cons. destruct (P v); simpl.
  - destruct (decide (true = true)); [|done]. simpl. lia.
  - destruct (decide (false = true)); [done|]. lia.
Qed.

Lemma dup_penalty_count (E : Env) (link : string) (visited : gset string) :
  dup_penalty E link visited
    = - 5 * Z.of_nat (length (spec_near_duplicates E link visited)).
Proof.
  unfold dup_penalty, spec_near_duplicates, _similarity.
  rewrite (penalty_fold (λ v, PrimFloat.ltb 0.85%float (ratio E link v))).
  lia.
Qed.

Lemma url_entropy_shannon (E : Env) (url : string) :
  _url_entropy E url = spec_shannon_entropy E url.
Proof.
  unfold _url_entropy, spec_shannon_entropy, probs.
  by rewrite <- list_fmap_compose.
Qed.

Lemma bonus_bool (b : bool) (P : Prop) `{Decision P} :
  (b = true ↔ P) → int_of_bool b * 2 = if bool_decide P then 2 else 0.
Proof.
  intros Hb. destruct b; simpl.
  - rewrite bool_decide_eq_true_2; [done | by apply Hb].
  - rewrite bool_decide_eq_false_2; [done|]. intros HP. by apply Hb in HP.
Qed.

(** C4. The score [_get_best_links] gives a candidate whose URL parses is
    the Shannon entropy of the URL's characters, plus 2 when the path has 2
    to 4 non-empty segments, plus 2 when the length of the path lies strictly
    between 20 and 120, minus 5 for every visited URL whose similarity ratio
    to the candidate exceeds 0.85. *)
Theorem C4_score_formula (E : Env) (link : string) (visited : gset string)
  (u : ParseResult) :
  urlparse E link = Ok u →
  score_link E link visited = Ok (spec_score E link visited (path u), link).
Proof.
  intros Hu. unfold score_link, spec_score. rewrite Hu. simpl.
  rewrite dup_penalty_count, path_depth_segments.
  rewrite (bonus_bool _ (2 ≤ Z.of_nat (spec_segment_count false (path u)) ≤ 4)).
  2: { rewrite andb_true_iff, !Z.leb_le. done. }
  rewrite (bonus_bool _ (20 < len (path u) < 120)).
  2: { rewrite andb_true_iff, !Z.ltb_lt. done. }
  by rewrite url_entropy_shannon.
Qed.

Lemma C4_score_formula_witness :
  urlparse Demo.scoring_env link_co
    = Ok {| scheme := "http"; netloc := "a.co"; path := "/a/co" |} ∧
  score_link Demo.scoring_env link_co {[link_co]}
    = Ok (spec_score Demo.scoring_env link_co {[link_co]} "/a/co", link_co).
Proof.
  split; [reflexivity|].
  apply (C4_score_formula Demo.scoring_env link_co {[link_co]}
           {| scheme := "http"; netloc := "a.co"; path := "/a/co" |}).
  reflexivity.
Defined.

End ScoreFacts.

(** ** The permission gate *)
Section RobotsFacts.
Import Robots.

(** The robots file of the origin could not be fetched, or its parse
    stopped on an exception. *)
Definition robots_unavailable (E : Env) (parsed : ParseResult) : Prop :=
  (∃ e, http_get E (robots_url parsed) = Raise e) ∨
  (∃ text rules e, http_get E (robots_url parsed) = Ok text ∧
                   robots_parse E text = (rules, Some e)).

Lemma allow_all_permits (E : Env) (rp : RobotFileParser E) (u : string) :
  disallow_all rp = false → allow_all rp = true →
  can_fetch E rp u = Ok true ∧ is_allowed E u rp = true.
Proof.
  intros Hd Ha. unfold is_allowed, can_fetch. by rewrite Hd, Ha.
Qed.

Lemma is_allowed_on_raise (E : Env) (rp : RobotFileParser E) (u : string)
  (e : exn) :
  can_fetch E rp u = Raise e → is_allowed E u rp = true.
Proof. intros H. unfold is_allowed. by rewrite H. Qed.

(** C7. The gate fails open. When the robots file cannot be fetched or
    parsed, [_get_robots_parser] still returns a policy, and that policy
    permits every URL; and whatever the policy, a URL whose evaluation
    raises is permitted by [is_allowed]. *)
Theorem C7_permission_gate_fails_open (E : Env) (url : string)
  (parsed : ParseResult) :
  urlparse E url = Ok parsed →
  robots_unavailable E parsed →
  (∃ rp, _get_robots_parser E url = Ok rp ∧
         ∀ u, can_fetch E rp u = Ok true ∧ is_allowed E u rp = true) ∧
  (∀ (rp : RobotFileParser E) (u : string) (e : exn),
     can_fetch E rp u = Raise e → is_allowed E u rp = true).
Proof.
  intros Hparsed Hfail. split; [|apply is_allowed_on_raise].
  unfold _get_robots_parser. rewrite Hparsed. simpl.
  destruct Hfail as [[e He] | (text & rules & e & Hget & Hparse)].
  - rewrite He. eexists. split; [reflexivity|].
    intros u. by apply allow_all_permits.
  - rewrite Hget, Hparse. eexists. split; [reflexivity|].
    intros u. by apply allow_all_permits.
Qed.

Definition unreachable_env : Env :=
  Demo.env (Raise (Exn "connection timed out")) Demo.one_page Demo.no_links.

Lemma C7_permission_gate_fails_open_witness :
  (∃ rp, _get_robots_parser unreachable_env "http://a.co/" = Ok rp ∧
         ∀ u, can_fetch unreachable_env rp u = Ok true ∧
              is_allowed unreachable_env u rp = true) ∧
  (∀ (rp : RobotFileParser unreachable_env) (u : string) (e : exn),
     can_fetch unreachable_env rp u = Raise e →
     is_allowed unreachable_env u rp = true).
Proof.
  apply (C7_permission_gate_fails_open unreachable_env "http://a.co/"
           {| scheme := "http"; netloc := "a.co"; path := "/" |}).
  - reflexivity.
  - left. exists (Exn "connection timed out"). reflexivity.
Defined.

End RobotsFacts.

Local Open Scope list_scope.

(** ** The fetch worker *)
Section WorkerFacts.
Import Visited Scorer Robots Worker.
Context (E : Env) (session_id : string) (rp : RobotFileParser E).

(** The queue operations touch the fields they name and no other. *)
Lemma queue_task_done (sh : Shared) : queue (task_done sh) = queue sh.
Proof. reflexivity. Qed.

Lemma queue_db_put (r : CrawlResult) (sh : Shared) :
  queue (db_put r sh) = queue sh.
Proof. reflexivity. Qed.

Lemma enqueue_children_queue (it : FrontierItem) (targets : list string) :
  ∀ sh, queue (enqueue_children it targets sh)
        = queue sh ++ ((λ t, Some (child_of it t)) <$> targets).
Proof.
  unfold enqueue_children.
  induction targets as [|t ts IH]; intros sh; simpl.
  - by rewrite app_nil_r.
  - rewrite IH. simpl. by rewrite <- app_assoc.
Qed.

Lemma enqueue_children_db (it : FrontierItem) (targets : list string) :
  ∀ sh, db_queue (enqueue_children it targets sh) = db_queue sh.
Proof.
  unfold enqueue_children.
  induction targets as [|t ts IH]; intros sh; simpl; [done|by rewrite IH].
Qed.

(** What [keep_link] keeps. *)
Definition is_candidate (url href full : string) : Prop :=
  urljoin E url href = Ok full ∧
  startswith "http" full = true ∧
  (∃ pf pu, urlparse E full = Ok pf ∧ urlparse E url = Ok pu ∧
            netloc pf = netloc pu) ∧
  is_allowed E full rp = true.

Lemma keep_link_candidate (url href full : string) :
  keep_link E rp url href = Ok (Some full) ↔ is_candidate url href full.
Proof.
  unfold keep_link, is_candidate. split.
  - destruct (urljoin E url href) as [f|e]; cbn [bind]; [|done].
    destruct (startswith "http" f) eqn:Hhttp; [|done].
    destruct (urlparse E f) as [pf|e] eqn:Hpf; cbn [bind]; [|done].
    destruct (urlparse E url) as [pu|e] eqn:Hpu; cbn [bind]; [|done].
    destruct (decide (netloc pf = netloc pu)) as [Hnet|]; [|done].
    destruct (is_allowed E f rp) eqn:Hallow; [|done].
    intros H. injection H as ->. rewrite Hpf. eauto 10.
  - intros (Hj & Hh & (pf & pu & Hpf & Hpu & Hnet) & Ha).
    rewrite Hj. cbn [bind]. rewrite Hh, Hpf. cbn [bind]. rewrite Hpu.
    cbn [bind]. rewrite Ha. by destruct (decide (netloc pf = netloc pu)).
Qed.

Lemma discover_from_candidates (url : string) (hrefs : list string) :
  ∀ discovered, discover_from E rp url hrefs = Ok discovered →
  ∀ full, full ∈ discovered ↔ ∃ href, href ∈ hrefs ∧ is_candidate url href full.
Proof.
  induction hrefs as [|h hrefs IH]; simpl; intros discovered Hd full.
  - injection Hd as <-. split; [by intros ?%elem_of_nil|].
    by intros (href & ?%elem_of_nil & _).
  - destruct (keep_link E rp url h) as [k|e] eqn:Hk; simpl in Hd; [|done].
    destruct (discover_from E rp url hrefs) as [ds|e]; simpl in Hd; [|done].
    injection Hd as <-. specialize (IH ds eq_refl full).
    destruct k as [f|].
    + rewrite elem_of_cons, IH. split.
      * intros [->|(href & Hin & Hc)].
        -- exists h. split; [left|]. by apply keep_link_candidate.
        -- exists href. split; [by right|done].
      * intros (href & [->|Hin]%elem_of_cons & Hc).
        -- left. apply keep_link_candidate in Hc. congruence.
        -- right. eauto.
    + rewrite IH. split.
      * intros (href & Hin & Hc). exists href. split; [by right|done].
      * intros (href & [->|Hin]%elem_of_cons & Hc); [|eauto].
        apply keep_link_candidate in Hc. congruence.
Qed.

Lemma dedup_NoDup (l : list string) : NoDup (dedup l).
Proof. unfold dedup. apply NoDup_elements. Qed.

Lemma dedup_elem_of (l : list string) (x : string) : x ∈ dedup l ↔ x ∈ l.
Proof. unfold dedup. by rewrite elem_of_elements, elem_of_list_to_set. Qed.

(** The scorer returns distinct URLs out of distinct candidates, never more
    than its limit. *)
Lemma best_links_sublist (links : list string) (vis : gset string)
  (limit : Z) (out : list string) :
  0 ≤ limit → NoDup links →
  _get_best_links E links vis limit = Ok out →
  NoDup out ∧ out ⊆ links ∧ (length out ≤ Z.to_nat limit)%nat.
Proof.
  intros Hlim Hnd Hout.
  apply best_links_shape in Hout as (scored & Hsc & ->).
  rewrite slice_to_nonneg by done. rewrite fmap_take.
  assert ((sort_reverse scored).*2 ≡ₚ links) as Hperm.
  { rewrite sort_reverse_perm. by rewrite (score_all_links E links vis). }
  repeat split.
  - eapply sublist_NoDup; [|apply sublist_take]. by rewrite Hperm.
  - intros x Hx. apply subseteq_take in Hx. by rewrite <- Hperm.
  - rewrite length_take. lia.
Qed.

Lemma select_targets_shape (depth : Z) (discovered : list string)
  (vis : gset string) (targets : list string) :
  select_targets E depth discovered vis = Ok targets →
  NoDup targets ∧ targets ⊆ dedup discovered ∧
  (depth < 2 → targets = take 50 (dedup discovered) ∧
               (length targets ≤ 50)%nat) ∧
  (2 ≤ depth →
     _get_best_links E (dedup discovered) vis default_limit = Ok targets ∧
     (length targets ≤ 5)%nat).
Proof.
  unfold select_targets. destruct (Z.ltb_spec depth 2) as [Hlt|Hge].
  - intros H. injection H as <-. rewrite slice_to_nonneg by lia.
    split; [|split; [|split]].
    + eapply sublist_NoDup; [apply dedup_NoDup | apply sublist_take].
    + apply subseteq_take.
    + intros _. split; [done|]. rewrite length_take. lia.
    + intros Hge. lia.
  - intros H.
    destruct (best_links_sublist (dedup discovered) vis default_limit targets)
      as (Hnd & Hsub & Hlen); [done | apply dedup_NoDup | done |].
    split; [done|]. split; [done|]. split; [intros Hlt; lia|].
    intros _. split; [done|]. unfold default_limit in Hlen. lia.
Qed.

(** C8. A fetch that fails puts one record on the results channel, with
    status "failed", the title "Error" and the text of the exception as
    content; it puts nothing on the frontier; and the worker is back at the
    head of its loop, where it takes the next item. The same holds when the
    exception comes out of the link extraction. *)
Theorem C8_failed_fetch_is_recorded (it : FrontierItem) (sh : Shared)
  (e : exn) :
  goto_page E (item_url it) = Raise e →
  ∃ sh',
    worker_step E session_id rp (Fetching it) sh = (Idle, sh') ∧
    db_queue sh'
      = db_queue sh ++
        [{| res_session := session_id; res_url := item_url it;
            res_title := "Error"; res_content := str_of_exn e;
            res_depth := item_depth it; res_status := "failed" |}] ∧
    queue sh' = queue sh ∧
    (∀ next rest, queue sh = Some next :: rest →
       item_url next ∉ visited sh →
       ∃ sh'', worker_step E session_id rp Idle sh' = (Fetching next, sh'') ∧
               queue sh'' = rest) ∧
    (∀ sh2 e2, extract_targets E rp it (visited sh2) = Raise e2 →
       worker_step E session_id rp (Extracting it) sh2
         = (Idle, task_done (db_put (failed_result session_id it e2) sh2))).
Proof.
  intros Hgoto. eexists. split; [|split; [|split; [|split]]].
  - simpl. rewrite Hgoto. reflexivity.
  - reflexivity.
  - reflexivity.
  - intros next rest Hq Hfresh. simpl. rewrite Hq.
    unfold check_and_mark.
    destruct (decide (item_url next ∈ visited sh)); [done|].
    eexists. split; reflexivity.
  - intros sh2 e2 Hex. simpl. by rewrite Hex.
Qed.

(** C9, as the code has it. After a successful fetch of
    [(url, depth, max_depth)]: when [depth < max_depth] fails the worker is
    done with the item and the frontier is as it was; when it holds the
    worker goes on to the links, and what it then puts on the frontier is
    one item per target, at [depth + 1] and with the same [max_depth]. The
    candidates are the links of the page whose joined URL starts with
    "http", has the netloc of the page (the scheme is not compared, the
    port is) and is allowed by the gate; the targets are distinct candidates:
    below depth 2 the first 50 of the distinct candidates, from depth 2 on
    what the scorer picks, 5 at most. *)
Theorem C9_children_of_a_fetched_page (it : FrontierItem) (sh : Shared)
  (title content : string) :
  goto_page E (item_url it) = Ok (title, content) →
  (¬ item_depth it < item_max_depth it →
     worker_step E session_id rp (Fetching it) sh
       = (Idle, task_done (db_put (success_result session_id it title content) sh)) ∧
     queue (task_done (db_put (success_result session_id it title content) sh))
       = queue sh) ∧
  (item_depth it < item_max_depth it →
     worker_step E session_id rp (Fetching it) sh
       = (Extracting it, db_put (success_result session_id it title content) sh)) ∧
  (∀ (sh' : Shared) (targets : list string),
     extract_targets E rp it (visited sh') = Ok targets →
     ∃ hrefs discovered sh'',
       worker_step E session_id rp (Extracting it) sh' = (Idle, sh'') ∧
       queue sh''
         = queue sh' ++
           ((λ t, Some {| item_url := t; item_depth := item_depth it + 1;
                          item_max_depth := item_max_depth it |}) <$> targets) ∧
       page_hrefs E (item_url it) = Ok hrefs ∧
       (∀ full, full ∈ discovered ↔
                ∃ href, href ∈ hrefs ∧ is_candidate (item_url it) href full) ∧
       NoDup targets ∧ targets ⊆ discovered ∧
       (item_depth it < 2 →
          targets = take 50 (dedup discovered) ∧ (length targets ≤ 50)%nat) ∧
       (2 ≤ item_depth it →
          _get_best_links E (dedup discovered) (visited sh') 5 = Ok targets ∧
          (length targets ≤ 5)%nat)).
Proof.
  intros Hgoto. split; [|split].
  - intros Hdepth. simpl. rewrite Hgoto.
    destruct (Z.ltb_spec (item_depth it) (item_max_depth it)); [lia|done].
  - intros Hdepth. simpl. rewrite Hgoto.
    destruct (Z.ltb_spec (item_depth it) (item_max_depth it)); [done|lia].
  - intros sh' targets Hex.
    assert (worker_step E session_id rp (Extracting it) sh'
              = (Idle, task_done (enqueue_children it targets sh'))) as Hstep
      by (simpl; by rewrite Hex).
    unfold extract_targets in Hex.
    destruct (page_hrefs E (item_url it)) as [hrefs|e0]; [|done].
    cbn [bind] in Hex.
    destruct (discover_from E rp (item_url it) hrefs) as [discovered|e0]
      eqn:Hdisc; [|done].
    cbn [bind] in Hex.
    apply select_targets_shape in Hex as (Hnd & Hsub & Hshallow & Hdeep).
    exists hrefs, discovered, (task_done (enqueue_children it targets sh')).
    split; [exact Hstep|]. split.
    { rewrite queue_task_done. apply enqueue_children_queue. }
    split; [done|]. split.
    { by apply discover_from_candidates. }
    split; [done|]. split.
    { intros x Hx. apply dedup_elem_of. by apply Hsub. }
    split; [exact Hshallow | exact Hdeep].
Qed.

End WorkerFacts.

(** ** Worked runs of one worker *)
Section WorkerRuns.
Import Visited Scorer Robots Worker Orchestrator.

Definition home : string := "http://a.co/".

(** A policy that allows everything. *)
Definition open_policy (E : Env) : RobotFileParser E :=
  {| entries := no_rules E; disallow_all := false; allow_all := true;
     last_checked := false |}.

(** A site whose every fetch times out. *)
Definition timeout_env : Env :=
  Demo.env (Ok "") (λ _, Raise (Exn "Timeout 20000ms exceeded")) Demo.no_links.

(** A site whose home page links twice to a page of its own and once to
    another host. *)
Definition linked_env : Env :=
  Demo.env (Ok "") Demo.one_page
    (λ url, if decide (url = home)
            then Ok ["http://a.co/x"; "http://b.co/y"; "http://a.co/x"]
            else Ok []).

(** A site whose home page loads, and carries one anchor whose [href] is a
    malformed IPv6 literal: [urljoin] raises [ValueError] on it. *)
Definition broken_link_env : Env :=
  Demo.env (Ok "") Demo.one_page
    (λ url, if decide (url = home) then Ok ["http://["] else Ok []).

Definition home_item (max_depth : Z) : FrontierItem :=
  {| item_url := home; item_depth := 0; item_max_depth := max_depth |}.

Definition seeded (max_depth : Z) : Shared :=
  queue_put (Some (home_item max_depth)) empty_shared.

Lemma C8_failed_fetch_is_recorded_witness :
  goto_page timeout_env home = Raise (Exn "Timeout 20000ms exceeded") ∧
  ∃ sh',
    worker_step timeout_env "s" (open_policy timeout_env)
      (Fetching (home_item 1)) empty_shared = (Idle, sh') ∧
    db_queue sh'
      = [{| res_session := "s"; res_url := home; res_title := "Error";
            res_content := "Timeout 20000ms exceeded"; res_depth := 0;
            res_status := "failed" |}] ∧
    queue sh' = [].
Proof.
  split; [reflexivity|].
  destruct (C8_failed_fetch_is_recorded timeout_env "s"
              (open_policy timeout_env) (home_item 1) empty_shared
              (Exn "Timeout 20000ms exceeded") eq_refl)
    as (sh' & Hstep & Hdb & Hq & _).
  exists sh'. split; [exact Hstep|]. split; [exact Hdb | exact Hq].
Defined.

Lemma C9_children_of_a_fetched_page_witness :
  goto_page linked_env home = Ok ("Home", "hello") ∧
  worker_step linked_env "s" (open_policy linked_env)
    (Fetching (home_item 1)) (seeded 1)
    = (Extracting (home_item 1),
       db_put (success_result "s" (home_item 1) "Home" "hello") (seeded 1)) ∧
  ∃ sh'',
    worker_step linked_env "s" (open_policy linked_env)
      (Extracting (home_item 1)) empty_shared = (Idle, sh'') ∧
    queue sh''
      = [Some {| item_url := "http://a.co/x"; item_depth := 1;
                 item_max_depth := 1 |}].
Proof.
  split; [reflexivity|].
  destruct (C9_children_of_a_fetched_page linked_env "s"
              (open_policy linked_env) (home_item 1) (seeded 1)
              "Home" "hello" eq_refl) as (_ & Hgo & Hlinks).
  split; [apply Hgo; simpl; lia|].
  destruct (Hlinks empty_shared ["http://a.co/x"])
    as (hrefs & discovered & sh'' & Hstep & Hq & _).
  { vm_compute. reflexivity. }
  exists sh''. split; [exact Hstep | exact Hq].
Defined.

(** The origin of a URL in the words of the specification: its scheme and
    its host, the host being the netloc without the port. *)
Definition spec_host (netloc : string) : string :=
  (Demo.span_until ":" netloc).1.

Definition spec_origin (E : Env) (url : string) : result (string * string) :=
  bind (urlparse E url) (λ p, Ok (scheme p, spec_host (netloc p))).

Definition spec_same_origin (E : Env) (a b : string) : bool :=
  match spec_origin E a, spec_origin E b with
  | Ok x, Ok y => bool_decide (x = y)
  | _, _ => false
  end.

(** A site whose home page, served over http, links to a page of the same
    host over https, to one over a scheme that only starts with "http", and
    to one of its own with the port written out. *)
Definition mixed_links : list string :=
  ["https://a.co/x"; "httpx://a.co/y"; "http://a.co:80/z"].

Definition mixed_env : Env :=
  Demo.env (Ok "") Demo.one_page
    (λ url, if decide (url = home) then Ok mixed_links else Ok []).

(** C9, at an input where the code departs from it. The page
    [http://a.co/] links to [https://a.co/x], [httpx://a.co/y] and
    [http://a.co:80/z]. The first two are of another origin (the scheme
    differs) and are the very links the worker enqueues; the third is of the
    origin of the page and is the one it drops, its netloc being ["a.co:80"]
    and not ["a.co"]. *)
Lemma C9_other_scheme_is_enqueued :
  page_hrefs mixed_env home = Ok mixed_links ∧
  spec_same_origin mixed_env home "https://a.co/x" = false ∧
  spec_same_origin mixed_env home "httpx://a.co/y" = false ∧
  spec_same_origin mixed_env home "http://a.co:80/z" = true ∧
  discover_from mixed_env (open_policy mixed_env) home mixed_links
    = Ok ["https://a.co/x"; "httpx://a.co/y"] ∧
  ∃ sh,
    worker_step mixed_env "s" (open_policy mixed_env)
      (Extracting (home_item 1)) empty_shared = (Idle, sh) ∧
    queue sh ≡ₚ
      [Some {| item_url := "https://a.co/x"; item_depth := 1;
               item_max_depth := 1 |};
       Some {| item_url := "httpx://a.co/y"; item_depth := 1;
               item_max_depth := 1 |}].
Proof.
  split; [reflexivity|]. split; [reflexivity|]. split; [reflexivity|].
  split; [reflexivity|]. split; [reflexivity|].
  eexists. split; [reflexivity|].
  vm_compute. first [reflexivity | apply perm_swap].
Qed.

(** C1, at the input where the code departs from it. The home page is
    fetched (a "success" record is put), then the link extraction raises
    inside the same [try], and the handler puts a "failed" record for the
    same item: one item dequeued, two records, and [pages_crawled] is 2 for
    the one page. *)
Theorem C1_two_results_for_one_item :
  let '(w, sh) :=
    worker_steps broken_link_env "s" (open_policy broken_link_env) 3 Idle
      (seeded 1) in
  w = Idle ∧ dequeued sh = 1%nat ∧ queue sh = [] ∧
  db_queue sh
    = [{| res_session := "s"; res_url := home; res_title := "Home";
          res_content := "hello"; res_depth := 0; res_status := "success" |};
       {| res_session := "s"; res_url := home; res_title := "Error";
          res_content := "Invalid IPv6 URL"; res_depth := 0;
          res_status := "failed" |}] ∧
  ∃ summary eff,
    crawl_url broken_link_env [] [0; 0; 0]%nat home None false true 1
      = (Returned summary, eff) ∧
    pages_fetched eff = [home] ∧
    (("pages_crawled", PInt 2) ∈ summary).
Proof.
  vm_compute. repeat split; try reflexivity.
  eexists _, _. split; [reflexivity|]. split; [reflexivity|].
  set_solver.
Qed.

End WorkerRuns.

(** ** The entry point *)
Section OrchestratorFacts.
Import Visited Scorer Robots Worker Orchestrator.

(** [d.get(k)] *)
Fixpoint dict_get (k : string) (d : pydict) : option pyval :=
  match d with
  | [] => None
  | (k', v) :: d' => if decide (k = k') then Some v else dict_get k d'
  end.

(** The keys of the summary of a crawl that ran. *)
Definition success_keys : list string :=
  ["url"; "status"; "session_id"; "pages_crawled"; "full_text";
   "content_preview"; "links"; "duration"; "crawl_only_duration";
   "saved_files"; "database_records"].

(** The fields the specification lists, under the names the code gives
    them. *)
Definition spec_summary_fields : list string :=
  ["url"; "status"; "session_id"; "pages_crawled"; "full_text";
   "content_preview"; "duration"; "saved_files"; "database_records"].

Definition blocked_env : Env :=
  Demo.env (Ok Demo.robots_closed) Demo.one_page Demo.no_links.

Lemma get_all_pages_fresh (E : Env) (sid : string) (db : list Row) :
  Forall (λ r, res_session (row_result r) ≠ sid) db →
  get_all_pages sid db = [].
Proof.
  induction 1 as [|r db Hr Hdb IH]; [done|].
  unfold get_all_pages in *. rewrite filter_cons.
  by destruct (decide (res_session (row_result r) = sid)).
Qed.

(** C5. A seed that the gate disallows: [crawl_url] returns the summary
    [{"status": "blocked"}]; no page is fetched, no file is written and the
    table is as it was, so it holds no row of the session. *)
Theorem C5_blocked_seed (E : Env) (db : list Row) (sched : list nat)
  (url : string) (save_folder : option string) (simulate recursive : bool)
  (max_depth : Z) (rp : RobotFileParser E) :
  _get_robots_parser E url = Ok rp →
  is_allowed E url rp = false →
  ∃ summary eff,
    crawl_url E db sched url save_folder simulate recursive max_depth
      = (Returned summary, eff) ∧
    dict_get "status" summary = Some (PStr "blocked") ∧
    pages_fetched eff = [] ∧
    files_written eff = [] ∧
    db_after eff = db ∧
    (Forall (λ r, res_session (row_result r) ≠ new_session_id E) db →
     get_all_pages (new_session_id E) (db_after eff) = []).
Proof.
  intros Hrp Hblocked. unfold crawl_url. rewrite Hrp, Hblocked. simpl.
  eexists _, _. split; [reflexivity|]. simpl.
  repeat (split; [reflexivity|]). apply (get_all_pages_fresh E).
Qed.

Lemma C5_blocked_seed_witness :
  ∃ rp, _get_robots_parser blocked_env home = Ok rp ∧
        is_allowed blocked_env home rp = false ∧
  ∃ summary eff,
    crawl_url blocked_env [] [0; 1; 0]%nat home None false true 3
      = (Returned summary, eff) ∧
    dict_get "status" summary = Some (PStr "blocked") ∧
    pages_fetched eff = [] ∧
    files_written eff = [] ∧
    db_after eff = [] ∧
    (Forall (λ r, res_session (row_result r) ≠ new_session_id blocked_env) [] →
     get_all_pages (new_session_id blocked_env) (db_after eff) = []).
Proof.
  eexists. split; [reflexivity|]. split; [reflexivity|].
  eapply (C5_blocked_seed blocked_env [] [0; 1; 0]%nat home None false true 3);
    reflexivity.
Defined.

(** C6, as the specification words it, fails: the summary of a blocked
    crawl has the key [status] and no other. *)
Lemma C6_blocked_summary_has_status_only :
  ∃ summary eff,
    crawl_url blocked_env [] [] home None false false 1
      = (Returned summary, eff) ∧
    summary.*1 = ["status"] ∧
    dict_get "url" summary = None ∧
    dict_get "session_id" summary = None ∧
    ¬ Forall (λ k, is_Some (dict_get k summary)) spec_summary_fields.
Proof.
  eexists _, _. split; [vm_compute; reflexivity|].
  split; [reflexivity|]. split; [reflexivity|]. split; [reflexivity|].
  intros H. apply Forall_cons in H as [[v Hv] _]. discriminate.
Qed.

Lemma dict_get_success (url sid full : string) (E : Env) (rows : list Row)
  (files : list string) :
  (success_summary E url sid rows full files).*1 = success_keys ∧
  dict_get "status" (success_summary E url sid rows full files)
    = Some (PStr "success") ∧
  Forall (λ k, is_Some (dict_get k (success_summary E url sid rows full files)))
    spec_summary_fields.
Proof.
  split; [reflexivity|]. split; [reflexivity|].
  unfold spec_summary_fields. repeat constructor; by eexists.
Qed.

(** C6, as the code has it. Whenever [crawl_url] returns, its summary is
    either the one-key dict of a blocked seed, or a dict with status
    "success" that holds every listed field (under the keys [url],
    [status], [session_id], [pages_crawled], [full_text],
    [content_preview], [duration], [saved_files], [database_records]). No
    summary has the status "error". *)
Theorem C6_summary_fields (E : Env) (db : list Row) (sched : list nat)
  (url : string) (save_folder : option string) (simulate recursive : bool)
  (max_depth : Z) (summary : pydict) (eff : Effects) :
  crawl_url E db sched url save_folder simulate recursive max_depth
    = (Returned summary, eff) →
  (summary = [("status", PStr "blocked")] ∧ pages_fetched eff = []) ∨
  (dict_get "status" summary = Some (PStr "success") ∧
   summary.*1 = success_keys ∧
   Forall (λ k, is_Some (dict_get k summary)) spec_summary_fields ∧
   dict_get "url" summary = Some (PStr url) ∧
   dict_get "session_id" summary = Some (PStr (new_session_id E))).
Proof.
  unfold crawl_url. destruct (_get_robots_parser E url) as [rp|e]; [|done].
  destruct (is_allowed E url rp); simpl.
  - destruct (unfinished _ =? 0); [|done].
    intros H. injection H as <- <-. right.
    split; [reflexivity|]. split; [reflexivity|].
    split; [apply dict_get_success|]. split; reflexivity.
  - intros H. injection H as <- <-. by left.
Qed.

Lemma C6_summary_fields_witness :
  ∃ summary eff,
    crawl_url Demo.scoring_env [] [0; 0]%nat home None false false 1
      = (Returned summary, eff) ∧
    ((summary = [("status", PStr "blocked")] ∧ pages_fetched eff = []) ∨
     (dict_get "status" summary = Some (PStr "success") ∧
      summary.*1 = success_keys ∧
      Forall (λ k, is_Some (dict_get k summary)) spec_summary_fields ∧
      dict_get "url" summary = Some (PStr home) ∧
      dict_get "session_id" summary
        = Some (PStr (new_session_id Demo.scoring_env)))).
Proof.
  eexists _, _. split; [vm_compute; reflexivity|].
  eapply (C6_summary_fields Demo.scoring_env [] [0; 0]%nat home None false
            false 1).
  vm_compute. reflexivity.
Defined.

End OrchestratorFacts.

(** ** Crawls that do not recurse *)
Section NonRecursive.
Import Visited Scorer Robots Worker Orchestrator.
Context (E : Env) (session_id : string) (rp : RobotFileParser E).

(** What holds of the pool all along a crawl seeded at [max_depth = 0]:
    the only item the frontier ever holds is the seed, and no worker is
    ever at the link extraction. *)
Definition seed_only (seed : FrontierItem) (p : Pool) : Prop :=
  Forall (λ w, w = Idle ∨ w = Fetching seed) p.1 ∧
  (queue p.2 = [] ∨ queue p.2 = [Some seed]).

Lemma worker_step_seed_only (seed : FrontierItem) (w : Phase) (sh : Shared) :
  item_depth seed = 0 → item_max_depth seed = 0 →
  w = Idle ∨ w = Fetching seed →
  queue sh = [] ∨ queue sh = [Some seed] →
  ((worker_step E session_id rp w sh).1 = Idle ∨
   (worker_step E session_id rp w sh).1 = Fetching seed) ∧
  (queue (worker_step E session_id rp w sh).2 = [] ∨
   queue (worker_step E session_id rp w sh).2 = [Some seed]).
Proof.
  intros Hd Hm [->| ->] Hq; simpl.
  - destruct Hq as [Hq | Hq]; rewrite Hq; simpl; [by auto|].
    unfold check_and_mark.
    destruct (decide (item_url seed ∈ visited sh)); simpl; auto.
  - destruct (goto_page E (item_url seed)) as [[title content]|e]; simpl.
    + rewrite Hd, Hm. simpl. auto.
    + auto.
Qed.

Lemma pool_step_seed_only (seed : FrontierItem) (i : nat) (p : Pool) :
  item_depth seed = 0 → item_max_depth seed = 0 →
  seed_only seed p → seed_only seed (pool_step E session_id rp i p).
Proof.
  intros Hd Hm [Hws Hq]. unfold pool_step.
  destruct (p.1 !! i) as [w|] eqn:Hw; [|by split].
  assert (w = Idle ∨ w = Fetching seed) as Hw'.
  { eapply (proj1 (Forall_forall _ _) Hws). by eapply list_elem_of_lookup_2. }
  destruct (worker_step_seed_only seed w p.2 Hd Hm Hw' Hq) as [Hphase Hqueue].
  destruct (worker_step E session_id rp w p.2) as [w' sh']. simpl in *.
  split; simpl; [|done]. by apply Forall_insert.
Qed.

Lemma run_schedule_seed_only (seed : FrontierItem) (sched : list nat) :
  item_depth seed = 0 → item_max_depth seed = 0 →
  ∀ p, seed_only seed p → seed_only seed (run_schedule E session_id rp sched p).
Proof.
  intros Hd Hm. unfold run_schedule.
  induction sched as [|i sched IH]; intros p Hp; simpl; [done|].
  apply IH. by apply pool_step_seed_only.
Qed.

Lemma initial_pool_seed_only (url : string) (max_depth : Z) :
  seed_only (seed_item url false max_depth) (initial_pool url false max_depth).
Proof.
  split; simpl; [|by right]. unfold NUM. repeat constructor.
Qed.

End NonRecursive.

Section NonRecursiveCrawl.
Import Visited Scorer Robots Worker Orchestrator.

(** C10. With [recursive=False] the seed is queued with [max_depth = 0]
    whatever [max_depth] was passed; the call does the same for any two
    values of [max_depth]; and under every schedule of the workers the
    frontier never holds anything but the seed and no worker reaches the
    link extraction, so no child is ever enqueued. *)
Theorem C10_max_depth_ignored_unless_recursive (E : Env) (db : list Row)
  (sched : list nat) (url : string) (save_folder : option string)
  (simulate : bool) (max_depth max_depth' : Z) (session_id : string)
  (rp : RobotFileParser E) :
  seed_item url false max_depth
    = {| item_url := url; item_depth := 0; item_max_depth := 0 |} ∧
  crawl_url E db sched url save_folder simulate false max_depth
    = crawl_url E db sched url save_folder simulate false max_depth' ∧
  Forall (λ w, w = Idle ∨ w = Fetching (seed_item url false max_depth))
    (run_schedule E session_id rp sched
       (initial_pool url false max_depth)).1 ∧
  Forall (λ x, x = Some (seed_item url false max_depth))
    (queue (run_schedule E session_id rp sched
              (initial_pool url false max_depth)).2).
Proof.
  split; [reflexivity|]. split; [reflexivity|].
  destruct (run_schedule_seed_only E session_id rp
              (seed_item url false max_depth) sched eq_refl eq_refl
              (initial_pool url false max_depth)
              (initial_pool_seed_only url max_depth)) as [Hws Hq].
  split; [exact Hws|].
  destruct Hq as [-> | ->]; repeat constructor.
Qed.

End NonRecursiveCrawl.

(* ===================================================================== *)
(** * Further properties of the service *)
(* ===================================================================== *)

(** ** What [_get_best_links] returns, and when it raises *)
Section SelectionFacts.
Import Scorer.

Lemma sort_reverse_length (l : list (float * string)) :
  length (sort_reverse l) = length l.
Proof. apply Permutation_length, sort_reverse_perm. Qed.

Lemma score_all_length (E : Env) (links : list string) (visited : gset string)
  (scored : list (float * string)) :
  score_all E links visited = Ok scored → length scored = length links.
Proof.
  intros H. apply score_all_links in H. rewrite <- H. by rewrite length_fmap.
Qed.

(** Scoring goes through exactly when every candidate parses; otherwise the
    exception is that of the first candidate that does not. *)
Lemma score_all_outcome (E : Env) (links : list string) (visited : gset string) :
  (Forall (λ l, is_ok (urlparse E l) = true) links ∧
   ∃ scored, score_all E links visited = Ok scored) ∨
  (∃ before l after e,
     links = before ++ l :: after ∧
     Forall (λ l, is_ok (urlparse E l) = true) before ∧
     urlparse E l = Raise e ∧
     score_all E links visited = Raise e).
Proof.
  induction links as [|l links IH]; simpl.
  - left. split; [constructor | eauto].
  - unfold score_link. destruct (urlparse E l) as [u|e] eqn:Hu; cbn [bind].
    + destruct IH as [[Hall [scored Hsc]] | (before & l' & after & e & -> & Hb & Hl & Hsc)].
      * left. split; [constructor; [by rewrite Hu | done]|].
        rewrite Hsc. cbn [bind]. eauto.
      * right. exists (l :: before), l', after, e.
        split; [done|]. split; [constructor; [by rewrite Hu | done]|].
        split; [done|]. rewrite Hsc. done.
    + right. exists [], l, links, e. repeat split; done.
Qed.

(** X1. With a limit that is not negative and candidates that all parse,
    [_get_best_links] returns exactly [min(limit, len(links))] URLs, each
    one of the candidates, and no URL twice when no candidate is given
    twice. In particular it returns [[]] for no candidates or limit 0. *)
Theorem best_links_count (E : Env) (links : list string)
  (visited : gset string) (limit : Z) :
  0 ≤ limit →
  Forall (λ l, is_ok (urlparse E l) = true) links →
  ∃ out, _get_best_links E links visited limit = Ok out ∧
         length out = Nat.min (Z.to_nat limit) (length links) ∧
         out ⊆ links ∧
         (NoDup links → NoDup out).
Proof.
  intros Hlim Hparse.
  destruct (score_all_outcome E links visited)
    as [[_ [scored Hsc]] | (before & l & after & e & -> & _ & Hl & _)].
  - exists ((slice_to limit (sort_reverse scored)).*2).
    assert (_get_best_links E links visited limit
              = Ok (slice_to limit (sort_reverse scored)).*2) as Hout
      by (unfold _get_best_links; by rewrite Hsc).
    split; [exact Hout|]. split.
    + rewrite length_fmap, slice_to_nonneg, length_take by done.
      by rewrite sort_reverse_length, (score_all_length E links visited).
    + assert ((sort_reverse scored).*2 ≡ₚ links) as Hperm.
      { rewrite sort_reverse_perm. by rewrite (score_all_links E links visited). }
      rewrite slice_to_nonneg, fmap_take by done. split.
      * intros x Hx. apply subseteq_take in Hx. by rewrite <- Hperm.
      * intros Hnd. eapply sublist_NoDup; [|apply sublist_take].
        by rewrite Hperm.
  - apply Forall_app in Hparse as [_ Hparse].
    apply Forall_cons in Hparse as [Hbad _]. by rewrite Hl in Hbad.
Qed.

Lemma best_links_count_witness :
  ∃ out, _get_best_links Demo.scoring_env [link_co; link_oc; "http://a.co/"] ∅ 2
           = Ok out ∧
         length out = Nat.min (Z.to_nat 2) 3 ∧
         out ⊆ [link_co; link_oc; "http://a.co/"] ∧
         (NoDup [link_co; link_oc; "http://a.co/"] → NoDup out).
Proof.
  apply (best_links_count Demo.scoring_env
           [link_co; link_oc; "http://a.co/"] ∅ 2).
  - lia.
  - repeat constructor.
Defined.

(** X2. A negative limit is read as a Python slice bound. The ranking is
    the list of which every call with a limit that is not negative returns
    a prefix (all of it from [len(links)] on); a call with a negative limit
    returns that ranking without its last [-limit] URLs: the best ranked
    stay, the worst ranked go, and [len(links) + limit] URLs come back
    (none when that is negative). *)
Theorem best_links_negative_limit (E : Env) (links : list string)
  (visited : gset string) (limit : Z) :
  limit < 0 →
  Forall (λ l, is_ok (urlparse E l) = true) links →
  ∃ ranking out dropped,
    (∀ k, 0 ≤ k →
       _get_best_links E links visited k = Ok (take (Z.to_nat k) ranking)) ∧
    _get_best_links E links visited (Z.of_nat (length links)) = Ok ranking ∧
    _get_best_links E links visited limit = Ok out ∧
    ranking = out ++ dropped ∧
    length dropped = Nat.min (Z.to_nat (- limit)) (length links) ∧
    Z.of_nat (length out) = Z.max 0 (Z.of_nat (length links) + limit).
Proof.
  intros Hlim Hparse.
  destruct (score_all_outcome E links visited)
    as [[_ [scored Hsc]] | (before & l & after & e & -> & _ & Hl & _)].
  - set (ranking := (sort_reverse scored).*2).
    assert (length ranking = length links) as Hlen.
    { unfold ranking. rewrite length_fmap, sort_reverse_length.
      by apply (score_all_length E links visited). }
    assert (∀ k, 0 ≤ k →
              _get_best_links E links visited k
                = Ok (take (Z.to_nat k) ranking)) as Hprefix.
    { intros k Hk. unfold _get_best_links. rewrite Hsc. cbn [bind].
      by rewrite slice_to_nonneg, fmap_take. }
    set (n := (length ranking - Z.to_nat (- limit))%nat).
    exists ranking, (take n ranking), (drop n ranking).
    split; [exact Hprefix|]. split; [|split; [|split; [|split]]].
    + rewrite Hprefix by lia. f_equal. apply take_ge. lia.
    + unfold _get_best_links. rewrite Hsc. cbn [bind]. f_equal.
      unfold slice_to. destruct (Z.ltb_spec limit 0); [|lia].
      rewrite fmap_take. unfold n, ranking. by rewrite length_fmap.
    + by rewrite take_drop.
    + rewrite length_drop. unfold n. lia.
    + rewrite length_take. unfold n. lia.
  - apply Forall_app in Hparse as [_ Hparse].
    apply Forall_cons in Hparse as [Hbad _]. by rewrite Hl in Hbad.
Qed.

Lemma best_links_negative_limit_witness :
  ∃ ranking out dropped,
    (∀ k, 0 ≤ k →
       _get_best_links Demo.scoring_env [link_co; link_oc; "http://a.co/"] ∅ k
         = Ok (take (Z.to_nat k) ranking)) ∧
    _get_best_links Demo.scoring_env [link_co; link_oc; "http://a.co/"] ∅
      (Z.of_nat 3) = Ok ranking ∧
    _get_best_links Demo.scoring_env [link_co; link_oc; "http://a.co/"] ∅ (-1)
      = Ok out ∧
    ranking = out ++ dropped ∧
    length dropped = Nat.min (Z.to_nat (- -1)) 3 ∧
    Z.of_nat (length out) = Z.max 0 (Z.of_nat 3 + -1).
Proof.
  apply (best_links_negative_limit Demo.scoring_env
           [link_co; link_oc; "http://a.co/"] ∅ (-1)).
  - lia.
  - repeat constructor.
Defined.

(** X3. One candidate that [urlparse] rejects makes the whole call raise,
    with the exception of the first such candidate: nothing is returned for
    the candidates that do parse. *)
Theorem best_links_raises_on_bad_candidate (E : Env)
  (before after : list string) (bad : string) (e : exn)
  (visited : gset string) (limit : Z) :
  Forall (λ l, is_ok (urlparse E l) = true) before →
  urlparse E bad = Raise e →
  _get_best_links E (before ++ bad :: after) visited limit = Raise e.
Proof.
  intros Hbefore Hbad. unfold _get_best_links.
  assert (score_all E (before ++ bad :: after) visited = Raise e) as ->; [|done].
  induction Hbefore as [|l before Hl Hb IH]; simpl.
  - unfold score_link. by rewrite Hbad.
  - unfold score_link at 1. destruct (urlparse E l); [|done].
    cbn [bind]. by rewrite IH.
Qed.

Lemma best_links_raises_on_bad_candidate_witness :
  _get_best_links Demo.scoring_env ([link_co] ++ "http://[" :: [link_oc]) ∅ 5
    = Raise (Exn "Invalid IPv6 URL").
Proof.
  apply (best_links_raises_on_bad_candidate Demo.scoring_env
           [link_co] [link_oc] "http://[" (Exn "Invalid IPv6 URL") ∅ 5).
  - repeat constructor.
  - reflexivity.
Defined.

End SelectionFacts.

(** ** The selection does not depend on the order of the candidates *)
Section SelectionOrder.
Import Scorer.

(** The pair [score_link] appends for a candidate that parses. *)
Definition scored_pair (E : Env) (visited : gset string) (link : string)
  : float * string :=
  match score_link E link visited with
  | Ok p => p
  | Raise _ => (0%float, link)
  end.

Lemma scored_pair_link (E : Env) (visited : gset string) (link : string) :
  (scored_pair E visited link).2 = link.
Proof.
  unfold scored_pair, score_link. by destruct (urlparse E link).
Qed.

Lemma score_all_fmap (E : Env) (links : list string) (visited : gset string) :
  Forall (λ l, is_ok (urlparse E l) = true) links →
  score_all E links visited = Ok (scored_pair E visited <$> links).
Proof.
  induction 1 as [|l links Hl Hall IH]; simpl; [done|].
  rewrite IH. unfold scored_pair, score_link.
  by destruct (urlparse E l).
Qed.

Lemma score_all_parses (E : Env) (links : list string) (visited : gset string)
  (scored : list (float * string)) :
  score_all E links visited = Ok scored →
  Forall (λ l, is_ok (urlparse E l) = true) links.
Proof.
  intros Hsc.
  destruct (score_all_outcome E links visited)
    as [[Hall _] | (before & l & after & e & _ & _ & _ & Hr)]; [done|].
  congruence.
Qed.

Lemma ranks_before_antisym (a b : float * string) :
  ranks_before a b → ranks_before b a →
  PrimFloat.eqb a.1 b.1 = true ∧ a.2 = b.2.
Proof.
  intros [Hba|[Hab Hsab]] [Hab'|[Hba' Hsba]].
  - apply ltb_asym in Hba. congruence.
  - apply ltb_not_eqb in Hba. congruence.
  - apply ltb_not_eqb in Hab'. congruence.
  - split; [done|]. by apply str_lt_total.
Qed.

(** X4. For candidates whose scores are numbers, the URLs returned depend
    on which candidates are passed and not on the order in which they are
    passed: any rearrangement of the list gives the same answer. *)
Theorem best_links_order_independent (E : Env) (links links' : list string)
  (visited : gset string) (limit : Z) (scored : list (float * string)) :
  links ≡ₚ links' →
  score_all E links visited = Ok scored →
  Forall not_nan_score scored →
  _get_best_links E links' visited limit
    = _get_best_links E links visited limit.
Proof.
  intros Hperm Hsc Hnan.
  pose proof (score_all_parses E links visited scored Hsc) as Hparse.
  assert (Forall (λ l, is_ok (urlparse E l) = true) links') as Hparse'
    by (by rewrite <- Hperm).
  rewrite (score_all_fmap E links visited Hparse) in Hsc.
  injection Hsc as <-.
  unfold _get_best_links.
  rewrite (score_all_fmap E links visited Hparse),
    (score_all_fmap E links' visited Hparse'). cbn [bind].
  do 3 f_equal.
  apply (StronglySorted_unique_strong ranks_before).
  - intros x1 x2 Hx1 Hx2 H12 H21.
    destruct (ranks_before_antisym x1 x2 H12 H21) as [_ Hlink].
    rewrite sort_reverse_perm in Hx1, Hx2.
    apply list_elem_of_fmap in Hx1 as (a & -> & _).
    apply list_elem_of_fmap in Hx2 as (b & -> & _).
    rewrite !scored_pair_link in Hlink. by subst.
  - apply sorted_ranks_before; [|apply sort_reverse_sorted].
    rewrite sort_reverse_perm. by rewrite <- Hperm.
  - apply sorted_ranks_before; [|apply sort_reverse_sorted].
    by rewrite sort_reverse_perm.
  - rewrite !sort_reverse_perm. by rewrite Hperm.
Qed.

Lemma best_links_order_independent_witness :
  _get_best_links Demo.scoring_env [link_oc; link_co] ∅ 1
    = _get_best_links Demo.scoring_env [link_co; link_oc] ∅ 1.
Proof.
  apply (best_links_order_independent Demo.scoring_env
           [link_co; link_oc] [link_oc; link_co] ∅ 1
           [(5%float, link_co); (5%float, link_oc)]).
  - apply Permutation_swap.
  - vm_compute. reflexivity.
  - repeat constructor.
Defined.

End SelectionOrder.

(** ** When the permission gate says no *)
Section RobotsBlocking.
Import Robots.

(** X5. The policy built by [_get_robots_parser] refuses a URL in one case
    only: the robots file was fetched, its parse ran to the end, and the
    rule matching answers False for the URL. No failure on the way (of the
    fetch, of the parse, of the matching itself) ever refuses a URL. *)
Theorem refused_only_by_a_parsed_rule (E : Env) (url u : string)
  (rp : RobotFileParser E) :
  _get_robots_parser E url = Ok rp →
  (is_allowed E u rp = false ↔
   ∃ parsed text rules,
     urlparse E url = Ok parsed ∧
     http_get E (robots_url parsed) = Ok text ∧
     robots_parse E text = (rules, None) ∧
     rules_allow E rules u = Ok false).
Proof.
  unfold _get_robots_parser.
  destruct (urlparse E url) as [parsed|e]; cbn [bind]; [|done].
  destruct (http_get E (robots_url parsed)) as [text|e] eqn:Hget.
  - destruct (robots_parse E text) as [rules [e|]] eqn:Hparse.
    + intros H. injection H as <-. unfold is_allowed, can_fetch. simpl.
      split; [done|]. intros (p & t & r & Hp & Ht & Hr & _).
      injection Hp as <-. rewrite Hget in Ht. injection Ht as <-.
      rewrite Hparse in Hr. done.
    + intros H. injection H as <-. unfold is_allowed, can_fetch. simpl.
      split.
      * intros Hno. exists parsed, text, rules. repeat split; try done.
        destruct (rules_allow E rules u) as [[]|]; done.
      * intros (p & t & r & Hp & Ht & Hr & Hallow).
        injection Hp as <-. rewrite Hget in Ht. injection Ht as <-.
        rewrite Hparse in Hr. injection Hr as <-. by rewrite Hallow.
  - intros H. injection H as <-. unfold is_allowed, can_fetch. simpl.
    split; [done|]. intros (p & t & r & Hp & Ht & _).
    injection Hp as <-. rewrite Hget in Ht. done.
Qed.

Lemma refused_only_by_a_parsed_rule_witness :
  ∃ rp, _get_robots_parser blocked_env home = Ok rp ∧
    (is_allowed blocked_env "http://a.co/private" rp = false ↔
     ∃ parsed text rules,
       urlparse blocked_env home = Ok parsed ∧
       http_get blocked_env (robots_url parsed) = Ok text ∧
       robots_parse blocked_env text = (rules, None) ∧
       rules_allow blocked_env rules "http://a.co/private" = Ok false).
Proof.
  eexists. split; [reflexivity|].
  apply (refused_only_by_a_parsed_rule blocked_env home "http://a.co/private").
  reflexivity.
Defined.

End RobotsBlocking.

(** ** Invariants of the worker pool *)
Section PoolInvariants.
Import Visited Scorer Robots Worker Orchestrator.
Context (E : Env) (session_id : string) (rp : RobotFileParser E).

(** A property of the pool that every move keeps holds after any schedule. *)
Lemma run_schedule_invariant (P : Pool → Prop) :
  (∀ i p, P p → P (pool_step E session_id rp i p)) →
  ∀ sched p, P p → P (run_schedule E session_id rp sched p).
Proof.
  intros Hstep sched. unfold run_schedule.
  induction sched as [|i sched IH]; intros p Hp; simpl; [done|].
  apply IH, Hstep, Hp.
Qed.

(** A property of the shared state alone that every move of a worker keeps,
    whatever the worker's phase. *)
Lemma shared_invariant (P : Shared → Prop) :
  (∀ w sh, P sh → P (worker_step E session_id rp w sh).2) →
  ∀ sched p, P p.2 → P (run_schedule E session_id rp sched p).2.
Proof.
  intros Hstep. apply (run_schedule_invariant (λ p, P p.2)).
  intros i p Hp. unfold pool_step. destruct (p.1 !! i) as [w|]; [|done].
  specialize (Hstep w p.2 Hp).
  by destruct (worker_step E session_id rp w p.2).
Qed.

(** Sums over the phases of the pool. *)
Definition total (f : Phase → Z) (ws : list Phase) : Z :=
  foldr Z.add 0 (f <$> ws).

Lemma total_cons (f : Phase → Z) (w : Phase) (ws : list Phase) :
  total f (w :: ws) = f w + total f ws.
Proof. reflexivity. Qed.

Lemma total_insert (f : Phase → Z) (ws : list Phase) (i : nat) (w w' : Phase) :
  ws !! i = Some w → total f (<[i := w']> ws) = total f ws - f w + f w'.
Proof.
  revert i. induction ws as [|x ws IH]; intros [|i] Hi; simplify_eq/=.
  - rewrite !total_cons. lia.
  - rewrite !total_cons, (IH i Hi). lia.
Qed.

Lemma total_nonneg (f : Phase → Z) (ws : list Phase) :
  (∀ w, 0 ≤ f w) → 0 ≤ total f ws.
Proof.
  intros Hf. induction ws as [|w ws IH]; [done|].
  rewrite total_cons. specialize (Hf w). lia.
Qed.

Lemma total_zero (f : Phase → Z) (ws : list Phase) :
  (∀ w, 0 ≤ f w) → total f ws = 0 → Forall (λ w, f w = 0) ws.
Proof.
  intros Hf. induction ws as [|w ws IH]; intros Hsum; [constructor|].
  rewrite total_cons in Hsum.
  pose proof (total_nonneg f ws Hf). specialize (Hf w).
  constructor; [lia | apply IH; lia].
Qed.

Lemma total_replicate_zero (f : Phase → Z) (n : nat) (w : Phase) :
  f w = 0 → total f (replicate n w) = 0.
Proof.
  intros Hw. induction n as [|n IH]; [done|].
  simpl. rewrite total_cons. lia.
Qed.

(** 1 for a worker that holds an item, 0 for one that does not. *)
Definition busy (w : Phase) : Z :=
  match w with
  | Fetching _ | Extracting _ => 1
  | Idle | Exited => 0
  end.

Lemma enqueue_children_unfinished (it : FrontierItem) (targets : list string) :
  ∀ sh, unfinished (enqueue_children it targets sh)
        = unfinished sh + Z.of_nat (length targets).
Proof.
  unfold enqueue_children.
  induction targets as [|t ts IH]; intros sh; simpl; [lia|].
  rewrite IH. simpl. lia.
Qed.

Lemma worker_step_in_flight (w : Phase) (sh : Shared) :
  unfinished (worker_step E session_id rp w sh).2
    - Z.of_nat (length (queue (worker_step E session_id rp w sh).2))
    - busy (worker_step E session_id rp w sh).1
  = unfinished sh - Z.of_nat (length (queue sh)) - busy w.
Proof.
  destruct w as [|it|it|]; simpl.
  - destruct (queue sh) as [|[it|] q] eqn:Hq; simpl.
    + rewrite Hq. simpl. lia.
    + unfold check_and_mark.
      destruct (decide (item_url it ∈ visited sh)); simpl; lia.
    + lia.
  - destruct (goto_page E (item_url it)) as [[title content]|e]; simpl.
    + destruct (item_depth it <? item_max_depth it); simpl; lia.
    + lia.
  - destruct (extract_targets E rp it (visited sh)) as [targets|e]; simpl.
    + rewrite enqueue_children_unfinished, enqueue_children_queue.
      rewrite length_app, length_fmap. lia.
    + lia.
  - lia.
Qed.

(** The count kept by the queue is the number of items waiting in it plus
    the number of workers that hold one. *)
Definition in_flight_counted (p : Pool) : Prop :=
  unfinished p.2 = Z.of_nat (length (queue p.2)) + total busy p.1.

Lemma pool_step_in_flight (i : nat) (p : Pool) :
  in_flight_counted p → in_flight_counted (pool_step E session_id rp i p).
Proof.
  unfold in_flight_counted, pool_step. intros Hp.
  destruct (p.1 !! i) as [w|] eqn:Hw; [|done].
  pose proof (worker_step_in_flight w p.2) as Hstep.
  destruct (worker_step E session_id rp w p.2) as [w' sh']. simpl in *.
  rewrite (total_insert busy p.1 i w w' Hw). lia.
Qed.

(** X6. Along every schedule of a crawl, the queue's count of unfinished
    items is the number of items waiting plus the number of workers in the
    middle of one. So [queue.join()] can return (the count is 0) exactly
    when the frontier is empty and no worker holds an item: nothing is in
    flight when the shutdown starts. *)
Theorem join_returns_when_nothing_is_in_flight (sched : list nat)
  (url : string) (recursive : bool) (max_depth : Z) :
  let p := run_schedule E session_id rp sched
             (initial_pool url recursive max_depth) in
  unfinished p.2 = Z.of_nat (length (queue p.2)) + total busy p.1 ∧
  (unfinished p.2 = 0 ↔
   queue p.2 = [] ∧ Forall (λ w, w = Idle ∨ w = Exited) p.1).
Proof.
  intros p.
  assert (in_flight_counted p) as Hinv.
  { apply (run_schedule_invariant in_flight_counted);
      [apply pool_step_in_flight|].
    unfold in_flight_counted, initial_pool. cbn [fst snd].
    by rewrite total_replicate_zero. }
  split; [exact Hinv|]. unfold in_flight_counted in Hinv.
  assert (0 ≤ total busy p.1) as Hnonneg
    by (apply total_nonneg; by intros []).
  split.
  - intros Hzero. split.
    + destruct (queue p.2); [done|]. simpl in Hinv. lia.
    + assert (total busy p.1 = 0) as Hbusy by lia.
      apply total_zero in Hbusy; [|by intros []].
      eapply Forall_impl; [exact Hbusy|]. intros [] Hw; simpl in Hw; auto; lia.
  - intros [Hq Hws]. rewrite Hinv, Hq. simpl.
    clear -Hws. induction Hws as [|w ws [-> | ->] _ IH];
      rewrite ?total_cons; simpl; [done|lia|lia].
Qed.

(** No URL is logged twice, and every logged URL is in the visited set. *)
Definition fetched_once (sh : Shared) : Prop :=
  NoDup (goto_log sh) ∧ ∀ u, u ∈ goto_log sh → u ∈ visited sh.

Lemma enqueue_children_visited (it : FrontierItem) (targets : list string) :
  ∀ sh, visited (enqueue_children it targets sh) = visited sh ∧
        goto_log (enqueue_children it targets sh) = goto_log sh.
Proof.
  unfold enqueue_children.
  induction targets as [|t ts IH]; intros sh; simpl; [done|].
  destruct (IH (queue_put (Some (child_of it t)) sh)) as [-> ->]. done.
Qed.

Lemma worker_step_fetched_once (w : Phase) (sh : Shared) :
  fetched_once sh → fetched_once (worker_step E session_id rp w sh).2.
Proof.
  intros [Hnd Hvis]. destruct w as [|it|it|]; simpl; [| | |done].
  - destruct (queue sh) as [|[it|] q]; simpl; [done| |done].
    unfold check_and_mark.
    destruct (decide (item_url it ∈ visited sh)) as [Hin|Hout]; simpl;
      [done|].
    split; simpl.
    + apply NoDup_app. split; [done|]. split; [|apply NoDup_singleton].
      intros u Hu ->%list_elem_of_singleton. by apply Hvis in Hu.
    + intros u [Hu | ->%list_elem_of_singleton]%elem_of_app; [|set_solver].
      apply Hvis in Hu. set_solver.
  - destruct (goto_page E (item_url it)) as [[title content]|e]; simpl.
    + by destruct (item_depth it <? item_max_depth it).
    + done.
  - destruct (extract_targets E rp it (visited sh)) as [targets|e]; simpl;
      [|done].
    unfold fetched_once. simpl.
    by destruct (enqueue_children_visited it targets sh) as [-> ->].
Qed.

End PoolInvariants.

(** ** What a crawl fetches and stores *)
Section CrawlRecords.
Import Visited Scorer Robots Worker Orchestrator.
Context (E : Env) (session_id : string) (rp : RobotFileParser E).

(** The shutdown keeps what the moves of the workers and the puts keep. *)
Lemma shutdown_shared_invariant (P : Shared → Prop) :
  (∀ x sh, P sh → P (queue_put x sh)) →
  (∀ w sh, P sh → P (worker_step E session_id rp w sh).2) →
  ∀ p, P p.2 → P (shutdown E session_id rp p).2.
Proof.
  intros Hput Hstep p Hp. unfold shutdown.
  apply (shared_invariant E session_id rp P Hstep). simpl.
  generalize p.1, p.2, Hp. clear p Hp.
  intros ws. induction ws as [|w ws IH]; intros sh Hsh; simpl; [done|].
  apply IH, Hput, Hsh.
Qed.

Lemma db_writer_appends (items : list CrawlResult) : ∀ db,
  ∃ rows, _db_writer E db items = db ++ rows ∧ row_result <$> rows = items.
Proof.
  unfold _db_writer.
  induction items as [|r items IH]; intros db; simpl.
  - exists []. by rewrite app_nil_r.
  - destruct (IH (insert_page_async E db r)) as (rows & -> & Hrows).
    unfold insert_page_async. eexists (_ :: rows).
    rewrite <- app_assoc. split; [reflexivity|]. rewrite fmap_cons. simpl.
    by f_equal.
Qed.

(** The bounds every item of a crawl seeded with [max_depth = M] keeps. *)
Definition item_ok (M : Z) (it : FrontierItem) : Prop :=
  item_max_depth it = M ∧ 0 ≤ item_depth it ≤ Z.max 0 M.

Definition record_ok (M : Z) (sh : Shared) (r : CrawlResult) : Prop :=
  res_session r = session_id ∧
  (res_status r = "success" ∨ res_status r = "failed") ∧
  0 ≤ res_depth r ≤ Z.max 0 M ∧
  res_url r ∈ goto_log sh.

Definition phase_ok (M : Z) (sh : Shared) (w : Phase) : Prop :=
  match w with
  | Idle | Exited => True
  | Fetching it => item_ok M it ∧ item_url it ∈ goto_log sh
  | Extracting it =>
      item_ok M it ∧ item_depth it < M ∧ item_url it ∈ goto_log sh
  end.

Definition shared_ok (M : Z) (sh : Shared) : Prop :=
  Forall (λ x, match x with Some it => item_ok M it | None => True end)
    (queue sh) ∧
  Forall (record_ok M sh) (db_queue sh).

Definition pool_ok (M : Z) (p : Pool) : Prop :=
  Forall (phase_ok M p.2) p.1 ∧ shared_ok M p.2.

Lemma enqueue_children_goto_log (it : FrontierItem) (targets : list string)
  (sh : Shared) : goto_log (enqueue_children it targets sh) = goto_log sh.
Proof. apply enqueue_children_visited. Qed.

(** A move only ever adds to the log. *)
Lemma worker_step_log_grows (w : Phase) (sh : Shared) :
  ∃ more, goto_log (worker_step E session_id rp w sh).2 = goto_log sh ++ more.
Proof.
  destruct w as [|it|it|]; simpl.
  - destruct (queue sh) as [|[it|] q]; simpl.
    + exists []. by rewrite app_nil_r.
    + unfold check_and_mark.
      destruct (decide (item_url it ∈ visited sh)); simpl; [|by eexists].
      exists []. by rewrite app_nil_r.
    + exists []. by rewrite app_nil_r.
  - exists []. rewrite app_nil_r.
    destruct (goto_page E (item_url it)) as [[title content]|e]; simpl;
      [|done]. by destruct (item_depth it <? item_max_depth it).
  - exists []. rewrite app_nil_r.
    destruct (extract_targets E rp it (visited sh)) as [targets|e]; simpl;
      [|done]. apply enqueue_children_goto_log.
  - exists []. by rewrite app_nil_r.
Qed.

Lemma record_ok_mono (M : Z) (sh sh' : Shared) (more : list string)
  (r : CrawlResult) :
  goto_log sh' = goto_log sh ++ more → record_ok M sh r → record_ok M sh' r.
Proof.
  intros Hlog (Hs & Hst & Hd & Hin).
  split; [done|]. split; [done|]. split; [done|].
  rewrite Hlog. apply elem_of_app. by left.
Qed.

Lemma phase_ok_mono (M : Z) (sh sh' : Shared) (more : list string)
  (w : Phase) :
  goto_log sh' = goto_log sh ++ more → phase_ok M sh w → phase_ok M sh' w.
Proof.
  intros Hlog. destruct w as [|it|it|]; simpl; try done.
  - intros [Hit Hin]. split; [done|].
    rewrite Hlog. apply elem_of_app. by left.
  - intros (Hit & Hlt & Hin). split; [done|]. split; [done|].
    rewrite Hlog. apply elem_of_app. by left.
Qed.

Lemma enqueue_children_ok (M : Z) (it : FrontierItem) (targets : list string) :
  item_ok M it → item_depth it < M →
  ∀ sh, shared_ok M sh → shared_ok M (enqueue_children it targets sh).
Proof.
  intros [Hmax Hdepth] Hlt. unfold enqueue_children.
  induction targets as [|t ts IH]; intros sh Hsh; simpl; [done|].
  apply IH. destruct Hsh as [Hq Hdb]. split; simpl.
  - apply Forall_app. split; [done|]. constructor; [|constructor].
    unfold item_ok, child_of. simpl. lia.
  - done.
Qed.

Lemma worker_step_ok (M : Z) (w : Phase) (sh : Shared) :
  phase_ok M sh w → shared_ok M sh →
  phase_ok M (worker_step E session_id rp w sh).2
    (worker_step E session_id rp w sh).1 ∧
  shared_ok M (worker_step E session_id rp w sh).2.
Proof.
  intros Hw [Hq Hdb]. destruct w as [|it|it|]; simpl.
  - destruct (queue sh) as [|[it|] q] eqn:Hqueue; simpl.
    + split; [done|]. split; [by rewrite Hqueue | done].
    + apply Forall_cons in Hq as [Hit Hq]. unfold check_and_mark.
      destruct (decide (item_url it ∈ visited sh)); simpl.
      * split; [done|]. by split.
      * split; [split; [done | set_solver]|]. split; simpl; [done|].
        eapply Forall_impl; [exact Hdb|]. intros r Hr.
        by eapply (record_ok_mono M sh _ [item_url it]).
    + apply Forall_cons in Hq as [_ Hq]. split; [done|]. by split.
  - destruct Hw as [[Hmax Hdepth] Hin].
    assert (∀ r, res_session r = session_id →
                 (res_status r = "success" ∨ res_status r = "failed") →
                 res_depth r = item_depth it → res_url r = item_url it →
                 shared_ok M (db_put r sh)) as Hput.
    { intros r Hs Hst Hd Hu. split; simpl; [done|].
      apply Forall_app. split; [done|]. constructor; [|constructor].
      unfold record_ok. simpl. rewrite Hs, Hd, Hu. repeat split; auto; lia. }
    destruct (goto_page E (item_url it)) as [[title content]|e]; simpl.
    + destruct (Z.ltb_spec (item_depth it) (item_max_depth it)); simpl.
      * split; [repeat split; auto; lia|]. by apply Hput; auto.
      * split; [done|]. apply (Hput (success_result session_id it title content));
          auto.
    + split; [done|]. apply (Hput (failed_result session_id it e)); auto.
  - destruct Hw as (Hit & Hlt & Hin).
    destruct (extract_targets E rp it (visited sh)) as [targets|e]; simpl.
    + split; [done|].
      destruct (enqueue_children_ok M it targets Hit Hlt sh (conj Hq Hdb))
        as [Hq' Hdb'].
      split; simpl; [done|].
      eapply Forall_impl; [exact Hdb'|]. intros r (? & ? & ? & Hr).
      repeat split; try done; try lia.
    + split; [done|]. split; simpl; [done|].
      apply Forall_app. split; [done|]. constructor; [|constructor].
      destruct Hit as [Hmax Hdepth].
      unfold record_ok. simpl. repeat split; auto; lia.
  - done.
Qed.

Lemma pool_step_ok (M : Z) (i : nat) (p : Pool) :
  pool_ok M p → pool_ok M (pool_step E session_id rp i p).
Proof.
  intros [Hws Hsh]. unfold pool_step.
  destruct (p.1 !! i) as [w|] eqn:Hw; [|by split].
  assert (phase_ok M p.2 w) as Hw'.
  { eapply (proj1 (Forall_forall _ _) Hws). by eapply list_elem_of_lookup_2. }
  destruct (worker_step_ok M w p.2 Hw' Hsh) as [Hphase Hshared].
  destruct (worker_step_log_grows w p.2) as [more Hlog].
  destruct (worker_step E session_id rp w p.2) as [w' sh']. simpl in *.
  split; simpl; [|done]. apply Forall_insert; [|done].
  eapply Forall_impl; [exact Hws|]. intros w0. by apply (phase_ok_mono M p.2 sh' more).
Qed.

Lemma initial_pool_ok (url : string) (recursive : bool) (max_depth : Z) :
  pool_ok (if recursive then max_depth else 0)
    (initial_pool url recursive max_depth).
Proof.
  split; simpl.
  - unfold NUM. repeat constructor.
  - split; simpl; [|constructor]. constructor; [|constructor].
    unfold item_ok, seed_item. simpl. lia.
Qed.

Lemma queue_put_None_ok (M : Z) (p : Pool) :
  pool_ok M p → pool_ok M (p.1, queue_put None p.2).
Proof.
  intros [Hws [Hq Hdb]]. split; simpl; [done|]. split; simpl; [|done].
  apply Forall_app. split; [done|]. by repeat constructor.
Qed.

Lemma shutdown_ok (M : Z) (p : Pool) :
  pool_ok M p → pool_ok M (shutdown E session_id rp p).
Proof.
  intros Hp. unfold shutdown.
  apply (run_schedule_invariant E session_id rp (pool_ok M));
    [apply pool_step_ok|].
  assert (∀ (ws : list Phase) (q : Pool), pool_ok M q →
            pool_ok M (q.1, fold_left (λ s _, queue_put None s) ws q.2)) as H.
  { intros ws. induction ws as [|w ws IH]; intros q Hq; simpl.
    - by destruct q.
    - apply (IH (q.1, queue_put None q.2)). by apply queue_put_None_ok. }
  apply (H p.1 p Hp).
Qed.

End CrawlRecords.

(** ** The effects of [crawl_url] *)
Section CrawlEffects.
Import Visited Scorer Robots Worker Orchestrator.

(** Either the crawl did not start, or its effects are those of a pool that
    kept the invariants above. *)
Lemma crawl_url_effects (E : Env) (db : list Row) (sched : list nat)
  (url : string) (save_folder : option string) (simulate recursive : bool)
  (max_depth : Z) :
  let eff := (crawl_url E db sched url save_folder simulate recursive
                max_depth).2 in
  (db_after eff = db ∧ pages_fetched eff = []) ∨
  (∃ p : Pool,
     pool_ok (new_session_id E) (if recursive then max_depth else 0) p ∧
     fetched_once p.2 ∧
     db_after eff = _db_writer E db (db_queue p.2) ∧
     pages_fetched eff = goto_log p.2).
Proof.
  unfold crawl_url.
  destruct (_get_robots_parser E url) as [rp|e]; simpl; [|by left].
  destruct (is_allowed E url rp); simpl; [|by left]. right.
  set (p := run_schedule E (new_session_id E) rp sched
              (initial_pool url recursive max_depth)).
  assert (pool_ok (new_session_id E) (if recursive then max_depth else 0) p)
    as Hok.
  { apply run_schedule_invariant; [apply pool_step_ok | apply initial_pool_ok]. }
  assert (fetched_once p.2) as Honce.
  { apply (shared_invariant E (new_session_id E) rp fetched_once).
    - apply worker_step_fetched_once.
    - split; simpl; [constructor | by intros u ?%elem_of_nil]. }
  destruct (unfinished p.2 =? 0); simpl.
  - exists (shutdown E (new_session_id E) rp p).
    split; [by apply shutdown_ok|]. split; [|done].
    apply (shutdown_shared_invariant E (new_session_id E) rp fetched_once);
      [done | apply worker_step_fetched_once | done].
  - exists p. done.
Qed.

(** X7. Whatever the site, the schedule and the arguments, [crawl_url]
    never hands the same URL to [page.goto] twice. *)
Theorem no_url_is_fetched_twice (E : Env) (db : list Row) (sched : list nat)
  (url : string) (save_folder : option string) (simulate recursive : bool)
  (max_depth : Z) :
  NoDup (pages_fetched
           (crawl_url E db sched url save_folder simulate recursive
              max_depth).2).
Proof.
  destruct (crawl_url_effects E db sched url save_folder simulate recursive
              max_depth) as [[_ ->] | (p & _ & [Hnd _] & _ & ->)];
    [constructor | done].
Qed.

(** The rows a crawl adds, and what they carry. *)
Lemma crawl_adds_session_rows (E : Env) (db : list Row)
  (sched : list nat) (url : string) (save_folder : option string)
  (simulate recursive : bool) (max_depth : Z) :
  let eff := (crawl_url E db sched url save_folder simulate recursive
                max_depth).2 in
  ∃ new : list Row,
    db_after eff = db ++ new ∧
    Forall (λ r, res_session (row_result r) = new_session_id E ∧
                 (res_status (row_result r) = "success" ∨
                  res_status (row_result r) = "failed") ∧
                 res_url (row_result r) ∈ pages_fetched eff) new.
Proof.
  intros eff.
  destruct (crawl_url_effects E db sched url save_folder simulate recursive
              max_depth) as [[Hdb _] | (p & [_ [_ Hrec]] & _ & Hdb & Hlog)];
    fold eff in Hdb |- *.
  - exists []. by rewrite app_nil_r.
  - fold eff in Hlog.
    destruct (db_writer_appends E (db_queue p.2) db) as (rows & Hrows & Hres).
    exists rows. split; [congruence|].
    rewrite <- Hres in Hrec. rewrite Forall_fmap in Hrec.
    eapply Forall_impl; [exact Hrec|]. intros r (Hs & Hst & _ & Hu). simpl.
    rewrite Hlog. done.
Qed.

(** X8. [crawl_url] only appends to the table: the rows that were there
    stay as they were, in place; every row it adds carries the session id
    of the call, the status "success" or "failed", and the URL of a page
    that was fetched. *)
Theorem stored_rows_belong_to_the_crawl (E : Env) (db : list Row)
  (sched : list nat) (url : string) (save_folder : option string)
  (simulate recursive : bool) (max_depth : Z) :
  let eff := (crawl_url E db sched url save_folder simulate recursive
                max_depth).2 in
  ∃ new : list Row,
    db_after eff = db ++ new ∧
    Forall (λ r, res_session (row_result r) = new_session_id E ∧
                 (res_status (row_result r) = "success" ∨
                  res_status (row_result r) = "failed") ∧
                 res_url (row_result r) ∈ pages_fetched eff) new.
Proof.
  apply crawl_adds_session_rows.
Qed.

(** X9. No row that [crawl_url] adds is deeper than the depth the crawl was
    seeded with: [max_depth] when [recursive] is true, 0 otherwise (and 0
    for a negative [max_depth]). *)
Theorem stored_depth_is_bounded (E : Env) (db : list Row) (sched : list nat)
  (url : string) (save_folder : option string) (simulate recursive : bool)
  (max_depth : Z) :
  ∃ new : list Row,
    db_after (crawl_url E db sched url save_folder simulate recursive
                max_depth).2 = db ++ new ∧
    Forall (λ r, 0 ≤ res_depth (row_result r)
                   ≤ Z.max 0 (if recursive then max_depth else 0)) new.
Proof.
  destruct (crawl_url_effects E db sched url save_folder simulate recursive
              max_depth) as [[Hdb _] | (p & [_ [_ Hrec]] & _ & Hdb & _)].
  - exists []. by rewrite app_nil_r.
  - destruct (db_writer_appends E (db_queue p.2) db) as (rows & Hrows & Hres).
    exists rows. split; [congruence|].
    rewrite <- Hres in Hrec. rewrite Forall_fmap in Hrec.
    eapply Forall_impl; [exact Hrec|]. by intros r (_ & _ & Hd & _).
Qed.

(** X10. Writing then reading back. After [_db_writer] has stored a batch
    of records, [get_all_pages] for a session returns what it returned
    before, followed by the records of the batch that carry that session
    id, in the order they were put. *)
Theorem get_all_pages_after_db_writer (E : Env) (db : list Row)
  (items : list CrawlResult) (sid : string) :
  row_result <$> get_all_pages sid (_db_writer E db items)
    = (row_result <$> get_all_pages sid db)
      ++ filter (λ r, res_session r = sid) items.
Proof.
  destruct (db_writer_appends E items db) as (rows & -> & <-).
  unfold get_all_pages. rewrite filter_app, fmap_app. f_equal.
  induction rows as [|r rows IH]; [done|].
  rewrite fmap_cons, !filter_cons.
  destruct (decide (res_session (row_result r) = sid)).
  - rewrite fmap_cons. by f_equal.
  - exact IH.
Qed.

End CrawlEffects.

(** ** What the summary counts *)
Section SummaryCounts.
Import Visited Scorer Robots Worker Orchestrator.

Lemma get_all_pages_app (sid : string) (db new : list Row) :
  Forall (λ r, res_session (row_result r) ≠ sid) db →
  Forall (λ r, res_session (row_result r) = sid) new →
  get_all_pages sid (db ++ new) = new.
Proof.
  intros Hdb Hnew. unfold get_all_pages. rewrite filter_app.
  assert (filter (λ r, res_session (row_result r) = sid) db = []) as ->.
  { induction Hdb as [|r db Hr _ IH]; [done|].
    rewrite filter_cons. by destruct (decide (res_session (row_result r) = sid)). }
  simpl. induction Hnew as [|r new Hr _ IH]; [done|].
  rewrite filter_cons.
  destruct (decide (res_session (row_result r) = sid)); [by f_equal | done].
Qed.

(** X11. When the session id is new to the table, the [pages_crawled] of a
    "success" summary is the number of rows the call added, and
    [database_records] are exactly those rows. *)
Theorem pages_crawled_counts_the_rows_added (E : Env) (db : list Row)
  (sched : list nat) (url : string) (save_folder : option string)
  (simulate recursive : bool) (max_depth : Z) (summary : pydict)
  (eff : Effects) :
  crawl_url E db sched url save_folder simulate recursive max_depth
    = (Returned summary, eff) →
  dict_get "status" summary = Some (PStr "success") →
  Forall (λ r, res_session (row_result r) ≠ new_session_id E) db →
  ∃ new : list Row,
    db_after eff = db ++ new ∧
    dict_get "pages_crawled" summary = Some (PInt (Z.of_nat (length new))) ∧
    dict_get "database_records" summary = Some (PList (row_dict <$> new)).
Proof.
  intros Hcrawl Hstatus Hfresh.
  pose proof (crawl_adds_session_rows E db sched url save_folder
                simulate recursive max_depth) as Hrows.
  rewrite Hcrawl in Hrows. simpl in Hrows. destruct Hrows as (new & Hdb & Hnew).
  exists new. split; [exact Hdb|].
  assert (get_all_pages (new_session_id E) (db_after eff) = new) as Hget.
  { rewrite Hdb. apply get_all_pages_app; [done|].
    eapply Forall_impl; [exact Hnew|]. by intros r [? _]. }
  unfold crawl_url in Hcrawl.
  destruct (_get_robots_parser E url) as [rp|e]; [|done].
  destruct (is_allowed E url rp); simpl in Hcrawl.
  - destruct (unfinished _ =? 0); [|done].
    injection Hcrawl as <- <-. simpl in *. rewrite Hget. done.
  - injection Hcrawl as <- <-. discriminate.
Qed.

Lemma pages_crawled_counts_the_rows_added_witness :
  ∃ summary eff,
    crawl_url Demo.scoring_env [] [0; 0]%nat home None false false 1
      = (Returned summary, eff) ∧
    ∃ new : list Row,
      db_after eff = [] ++ new ∧
      dict_get "pages_crawled" summary = Some (PInt (Z.of_nat (length new))) ∧
      dict_get "database_records" summary = Some (PList (row_dict <$> new)).
Proof.
  eexists _, _. split; [vm_compute; reflexivity|].
  eapply (pages_crawled_counts_the_rows_added Demo.scoring_env [] [0; 0]%nat
            home None false false 1).
  - vm_compute. reflexivity.
  - reflexivity.
  - constructor.
Defined.

End SummaryCounts.

(** ** A crawl that does not recurse stores one row *)
Section SinglePage.
Import Visited Scorer Robots Worker Orchestrator.
Context (E : Env) (session_id : string) (rp : RobotFileParser E).
Context (url : string) (max_depth : Z).

Let seed : FrontierItem := seed_item url false max_depth.

(** The one record of the crawl: that of the fetch, or that of its
    failure. *)
Definition seed_record : CrawlResult :=
  match goto_page E url with
  | Ok (title, content) => success_result session_id seed title content
  | Raise e => failed_result session_id seed e
  end.

(** The three stages of the pool: the seed waits; one worker fetches it;
    its record is out. *)
Inductive stage : Pool → Prop :=
| stage_waiting sh :
    queue sh = [Some seed] → visited sh = ∅ → db_queue sh = [] →
    goto_log sh = [] → unfinished sh = 1 →
    stage (replicate NUM Idle, sh)
| stage_fetching i sh :
    (i < NUM)%nat →
    queue sh = [] → db_queue sh = [] → goto_log sh = [url] →
    unfinished sh = 1 →
    stage (<[i := Fetching seed]> (replicate NUM Idle), sh)
| stage_done sh :
    queue sh = [] → db_queue sh = [seed_record] → goto_log sh = [url] →
    unfinished sh = 0 →
    stage (replicate NUM Idle, sh).

Lemma idle_on_empty_queue (sh : Shared) :
  queue sh = [] → worker_step E session_id rp Idle sh = (Idle, sh).
Proof. intros Hq. simpl. by rewrite Hq. Qed.

Lemma fetch_seed_step (sh : Shared) :
  worker_step E session_id rp (Fetching seed) sh
    = (Idle, task_done (db_put seed_record sh)).
Proof.
  simpl. unfold seed_record.
  by destruct (goto_page E url) as [[title content]|e].
Qed.

Lemma take_seed_step (sh : Shared) :
  queue sh = [Some seed] → visited sh = ∅ →
  ∃ sh', worker_step E session_id rp Idle sh = (Fetching seed, sh') ∧
         queue sh' = [] ∧ db_queue sh' = db_queue sh ∧
         goto_log sh' = goto_log sh ++ [url] ∧
         unfinished sh' = unfinished sh.
Proof.
  intros Hq Hvis. simpl. rewrite Hq. unfold check_and_mark. rewrite Hvis.
  destruct (decide (item_url seed ∈ (∅ : gset string))) as [Hin|_];
    [set_solver|].
  eexists. split; [reflexivity|]. done.
Qed.

Lemma pool_step_stage (i : nat) (p : Pool) :
  stage p → stage (pool_step E session_id rp i p).
Proof.
  intros Hp. unfold pool_step.
  destruct Hp as [sh Hq Hvis Hdb Hlog Hun | j sh Hj Hq Hdb Hlog Hun
                 | sh Hq Hdb Hlog Hun]; cbn [fst snd].
  - destruct (replicate NUM Idle !! i) as [w|] eqn:Hw;
      [|by apply stage_waiting].
    apply lookup_replicate in Hw as [-> Hi].
    destruct (take_seed_step sh Hq Hvis) as (sh' & -> & Hq' & Hdb' & Hlog' & Hun').
    apply stage_fetching; try done; try congruence.
    by rewrite Hlog', Hlog.
  - destruct (decide (i = j)) as [->|Hne].
    + rewrite list_lookup_insert_eq by (by rewrite length_replicate).
      rewrite fetch_seed_step, list_insert_insert_eq.
      rewrite list_insert_id by (by apply lookup_replicate).
      apply stage_done; simpl; try done; [by rewrite Hdb | lia].
    + rewrite list_lookup_insert_ne by done.
      destruct (replicate NUM Idle !! i) as [w|] eqn:Hw;
        [|by apply stage_fetching].
      apply lookup_replicate in Hw as [-> Hi].
      rewrite (idle_on_empty_queue sh Hq).
      rewrite list_insert_id; [by apply stage_fetching|].
      rewrite list_lookup_insert_ne by done. by apply lookup_replicate.
  - destruct (replicate NUM Idle !! i) as [w|] eqn:Hw; [|by apply stage_done].
    apply lookup_replicate in Hw as [-> Hi].
    rewrite (idle_on_empty_queue sh Hq).
    rewrite list_insert_id; [by apply stage_done | by apply lookup_replicate].
Qed.

Lemma run_schedule_stage (sched : list nat) :
  stage (run_schedule E session_id rp sched (initial_pool url false max_depth)).
Proof.
  apply run_schedule_invariant; [apply pool_step_stage|].
  by apply stage_waiting.
Qed.

(** While the workers take their sentinels, the records and the log stay. *)
Definition winding_down (db : list CrawlResult) (log : list string)
  (p : Pool) : Prop :=
  Forall (λ w, w = Idle ∨ w = Exited) p.1 ∧
  Forall (λ x, x = None) (queue p.2) ∧
  db_queue p.2 = db ∧ goto_log p.2 = log.

Lemma pool_step_winding_down (db : list CrawlResult) (log : list string)
  (i : nat) (p : Pool) :
  winding_down db log p → winding_down db log (pool_step E session_id rp i p).
Proof.
  destruct p as [ws sh]. unfold winding_down, pool_step. cbn [fst snd].
  intros (Hws & Hq & Hdb & Hlog).
  destruct (ws !! i) as [w|] eqn:Hw; [|done].
  assert (w = Idle ∨ w = Exited) as [-> | ->].
  { eapply (proj1 (Forall_forall _ _) Hws). by eapply list_elem_of_lookup_2. }
  - simpl. destruct (queue sh) as [|x q] eqn:Hqueue.
    + cbn [fst snd]. rewrite Hqueue.
      split; [apply Forall_insert; auto | done].
    + apply Forall_cons in Hq as [-> Hq]. cbn [fst snd]. simpl.
      split; [apply Forall_insert; auto | done].
  - simpl. split; [apply Forall_insert; auto | done].
Qed.

Lemma shutdown_winding_down (db : list CrawlResult) (log : list string)
  (sh : Shared) :
  queue sh = [] → db_queue sh = db → goto_log sh = log →
  winding_down db log (shutdown E session_id rp (replicate NUM Idle, sh)).
Proof.
  intros Hq Hdb Hlog. unfold shutdown.
  apply (run_schedule_invariant E session_id rp (winding_down db log));
    [apply pool_step_winding_down|].
  cbn [fst snd].
  assert (∀ (ws : list Phase) (s : Shared),
            Forall (λ x, x = None) (queue s) → db_queue s = db →
            goto_log s = log →
            Forall (λ x, x = None)
              (queue (fold_left (λ s _, queue_put None s) ws s)) ∧
            db_queue (fold_left (λ s _, queue_put None s) ws s) = db ∧
            goto_log (fold_left (λ s _, queue_put None s) ws s) = log) as H.
  { intros ws. induction ws as [|w ws IH]; intros s Hs Hd Hl; simpl; [done|].
    apply IH; simpl; try done. apply Forall_app. split; [done|].
    by repeat constructor. }
  split; [|apply H; by rewrite ?Hq].
  unfold NUM. repeat constructor; auto.
Qed.

End SinglePage.

Section SinglePageCrawl.
Import Visited Scorer Robots Worker Orchestrator.

(** X12. A crawl with [recursive=False] that returns "success" has fetched
    the seed and nothing else, and has added one row: for the seed, at
    depth 0, with the title and text of the page and the status "success"
    when the page loaded, with the title "Error", the text of the exception
    and the status "failed" when it did not. *)
Theorem single_page_crawl_stores_one_row (E : Env) (db : list Row)
  (sched : list nat) (url : string) (save_folder : option string)
  (simulate : bool) (max_depth : Z) (summary : pydict) (eff : Effects) :
  crawl_url E db sched url save_folder simulate false max_depth
    = (Returned summary, eff) →
  dict_get "status" summary = Some (PStr "success") →
  pages_fetched eff = [url] ∧
  ∃ row : Row,
    db_after eff = db ++ [row] ∧
    res_url (row_result row) = url ∧
    res_depth (row_result row) = 0 ∧
    match goto_page E url with
    | Ok (title, content) =>
        res_status (row_result row) = "success" ∧
        res_title (row_result row) = title ∧
        res_content (row_result row) = content
    | Raise e =>
        res_status (row_result row) = "failed" ∧
        res_title (row_result row) = "Error" ∧
        res_content (row_result row) = str_of_exn e
    end.
Proof.
  unfold crawl_url.
  destruct (_get_robots_parser E url) as [rp|e]; [|done].
  destruct (is_allowed E url rp); cbn [negb]; [|by intros [= <- <-]].
  pose proof (run_schedule_stage E (new_session_id E) rp url max_depth sched)
    as Hstage.
  destruct (unfinished _ =? 0) eqn:Hjoin; [|done].
  apply Z.eqb_eq in Hjoin.
  inversion Hstage as [sh Hq Hvis Hdb Hlog Hun Hp
                      | j sh Hj Hq Hdb Hlog Hun Hp
                      | sh Hq Hdb Hlog Hun Hp];
    rewrite <- Hp in Hjoin; simpl in Hjoin; try lia.
  destruct (shutdown_winding_down E (new_session_id E) rp
              [seed_record E (new_session_id E) url max_depth] [url] sh Hq Hdb Hlog)
    as (_ & _ & Hdb' & Hlog').
  change (replicate NUM Idle) with [Idle; Idle; Idle; Idle; Idle; Idle]
    in Hdb', Hlog'.
  intros [= <- <-] _. cbn [pages_fetched db_after].
  split; [exact Hlog'|]. rewrite Hdb'.
  eexists. split; [reflexivity|]. simpl. unfold seed_record.
  destruct (goto_page E url) as [[title content]|e]; simpl; done.
Qed.

Lemma single_page_crawl_stores_one_row_witness :
  ∃ summary eff,
    crawl_url timeout_env [] [3; 3; 1]%nat home None false false 2
      = (Returned summary, eff) ∧
    pages_fetched eff = [home] ∧
    ∃ row : Row,
      db_after eff = [] ++ [row] ∧
      res_url (row_result row) = home ∧
      res_depth (row_result row) = 0 ∧
      res_status (row_result row) = "failed" ∧
      res_title (row_result row) = "Error" ∧
      res_content (row_result row) = "Timeout 20000ms exceeded".
Proof.
  eexists _, _. split; [vm_compute; reflexivity|].
  eapply (single_page_crawl_stores_one_row timeout_env [] [3; 3; 1]%nat home
            None false 2).
  - vm_compute. reflexivity.
  - reflexivity.
Defined.

End SinglePageCrawl.

(** ** How many rows a crawl can add *)
Section RowCount.
Import Visited Scorer Robots Worker Orchestrator.

(** The records a worker may still put for the item it holds: the one of
    the fetch and the one of a failure after it. *)
Definition records_due (w : Phase) : Z :=
  match w with
  | Fetching _ => 2
  | Extracting _ => 1
  | Idle | Exited => 0
  end.

Definition records_counted (p : Pool) : Prop :=
  Z.of_nat (length (db_queue p.2)) + total records_due p.1
    ≤ 2 * Z.of_nat (length (goto_log p.2)).

Lemma worker_step_records (E : Env) (sid : string) (rp : RobotFileParser E)
  (w : Phase) (sh : Shared) :
  Z.of_nat (length (db_queue (worker_step E sid rp w sh).2))
    + records_due (worker_step E sid rp w sh).1
    - 2 * Z.of_nat (length (goto_log (worker_step E sid rp w sh).2))
  ≤ Z.of_nat (length (db_queue sh)) + records_due w
    - 2 * Z.of_nat (length (goto_log sh)).
Proof.
  destruct w as [|it|it|]; simpl.
  - destruct (queue sh) as [|[it|] q]; simpl; [lia| |lia].
    unfold check_and_mark.
    destruct (decide (item_url it ∈ visited sh)); simpl; [lia|].
    rewrite length_app. simpl. lia.
  - destruct (goto_page E (item_url it)) as [[title content]|e]; simpl.
    + destruct (item_depth it <? item_max_depth it); simpl;
        rewrite length_app; simpl; lia.
    + rewrite length_app. simpl. lia.
  - destruct (extract_targets E rp it (visited sh)) as [targets|e]; simpl.
    + rewrite enqueue_children_db, enqueue_children_goto_log. lia.
    + rewrite length_app. simpl. lia.
  - lia.
Qed.

Lemma pool_step_records (E : Env) (sid : string) (rp : RobotFileParser E)
  (i : nat) (p : Pool) :
  records_counted p → records_counted (pool_step E sid rp i p).
Proof.
  unfold records_counted, pool_step. intros Hp.
  destruct (p.1 !! i) as [w|] eqn:Hw; [|done].
  pose proof (worker_step_records E sid rp w p.2) as Hstep.
  destruct (worker_step E sid rp w p.2) as [w' sh']. simpl in *.
  rewrite (total_insert records_due p.1 i w w' Hw). lia.
Qed.

Lemma shutdown_records (E : Env) (sid : string) (rp : RobotFileParser E)
  (p : Pool) :
  records_counted p → records_counted (shutdown E sid rp p).
Proof.
  intros Hp. unfold shutdown.
  apply (run_schedule_invariant E sid rp records_counted);
    [apply pool_step_records|].
  assert (∀ (ws : list Phase) (s : Shared),
            db_queue (fold_left (λ s _, queue_put None s) ws s) = db_queue s ∧
            goto_log (fold_left (λ s _, queue_put None s) ws s) = goto_log s)
    as H.
  { intros ws. induction ws as [|w ws IH]; intros s; simpl; [done|].
    by destruct (IH (queue_put None s)) as [-> ->]. }
  unfold records_counted in *. cbn [fst snd].
  by destruct (H p.1 p.2) as [-> ->].
Qed.

(** X13. A crawl adds at most two rows for every page it fetches. *)
Theorem at_most_two_rows_per_page (E : Env) (db : list Row)
  (sched : list nat) (url : string) (save_folder : option string)
  (simulate recursive : bool) (max_depth : Z) :
  let eff := (crawl_url E db sched url save_folder simulate recursive
                max_depth).2 in
  ∃ new : list Row,
    db_after eff = db ++ new ∧
    (length new ≤ 2 * length (pages_fetched eff))%nat.
Proof.
  unfold crawl_url.
  destruct (_get_robots_parser E url) as [rp|e]; simpl;
    [|exists []; by rewrite app_nil_r].
  destruct (is_allowed E url rp); simpl; [|exists []; by rewrite app_nil_r].
  set (p := run_schedule E (new_session_id E) rp sched
              (initial_pool url recursive max_depth)).
  assert (records_counted p) as Hp.
  { apply run_schedule_invariant; [apply pool_step_records|].
    unfold records_counted, initial_pool. cbn [fst snd].
    rewrite total_replicate_zero by done. simpl. lia. }
  assert (∀ q, records_counted q →
            ∃ new, _db_writer E db (db_queue q.2) = db ++ new ∧
                   (length new ≤ 2 * length (goto_log q.2))%nat) as Hrows.
  { intros q Hq.
    destruct (db_writer_appends E (db_queue q.2) db) as (rows & Hrows & Hres).
    exists rows. split; [done|]. unfold records_counted in Hq.
    rewrite <- Hres, length_fmap in Hq.
    pose proof (total_nonneg records_due q.1) as Hnn.
    assert (0 ≤ total records_due q.1) by (apply Hnn; by intros []). lia. }
  destruct (unfinished p.2 =? 0); simpl.
  - apply Hrows. by apply shutdown_records.
  - by apply Hrows.
Qed.

End RowCount.

(* ===================================================================== *)
(** * The analytics service ([app/services/analytics.py]) *)
(* ===================================================================== *)
Module Analytics.
Import Orchestrator.

(** An entry of [AnalyticsService.events]. *)
Record Event := {
  ev_timestamp : string;
  ev_type : string;
  ev_provider : string;
  ev_details : pydict;
}.

(** [AnalyticsService()]: the one instance, created with an empty log the
    first time and returned as it is afterwards. [None] is the class before
    the first call. *)
Definition instance (cls : option (list Event)) : list Event :=
  match cls with
  | None => []
  | Some events => events
  end.

(** [log_event]; [now] is [datetime.now()]. [details or {}] is the dict
    given unless it is [None] or empty. *)
Definition log_event (now : string) (events : list Event)
  (event_type provider : string) (details : option pydict) : list Event :=
  events ++
  [{| ev_timestamp := now; ev_type := event_type; ev_provider := provider;
      ev_details := match details with
                    | Some (item :: rest) => item :: rest
                    | Some [] | None => []
                    end |}].

(** What [get_stats] returns. *)
Record Stats := {
  total_tickets : Z;
  by_provider : gmap string Z;
  recent_events : list Event;
}.

(** The body of the loop of [get_stats], on the pair of the total and the
    [defaultdict(int)]. *)
Definition count_event (acc : Z * gmap string Z) (event : Event)
  : Z * gmap string Z :=
  if decide (ev_type event = "TICKET_CREATED") then
    (acc.1 + 1,
     <[ev_provider event := default 0 (acc.2 !! ev_provider event) + 1]> acc.2)
  else acc.

(** [get_stats]; [self.events[-10:]] is the last ten events, or all of them
    when there are fewer. *)
Definition get_stats (events : list Event) : Stats :=
  let acc := fold_left count_event events (0, ∅) in
  {| total_tickets := acc.1;
     by_provider := acc.2;
     recent_events := drop (length events - 10) events |}.

End Analytics.

Section AnalyticsFacts.
Import Orchestrator Analytics.

(** The tickets of a provider in the log. *)
Definition tickets_of (provider : string) (events : list Event) : Z :=
  Z.of_nat (length (filter (λ ev, ev_type ev = "TICKET_CREATED" ∧
                                  ev_provider ev = provider) events)).

Definition tickets (events : list Event) : Z :=
  Z.of_nat (length (filter (λ ev, ev_type ev = "TICKET_CREATED") events)).

Definition sum_values (m : gmap string Z) : Z :=
  map_fold (λ _ v acc, v + acc) 0 m.

Lemma sum_values_insert (m : gmap string Z) (k : string) (v : Z) :
  sum_values (<[k := v]> m) = sum_values m - default 0 (m !! k) + v.
Proof.
  unfold sum_values.
  destruct (m !! k) as [x|] eqn:Hk; simpl.
  - assert (map_fold (λ _ v acc, v + acc) 0 (<[k := v]> m)
              = v + map_fold (λ _ v acc, v + acc) 0 (delete k m)) as H1.
    { rewrite <- insert_delete_eq.
      apply (map_fold_insert_L (λ _ v acc, v + acc));
        [intros; lia | apply lookup_delete_eq]. }
    assert (map_fold (λ _ v acc, v + acc) 0 m
              = x + map_fold (λ _ v acc, v + acc) 0 (delete k m)) as H2.
    { apply (map_fold_delete_L (λ _ v acc, v + acc)); [intros; lia | done]. }
    lia.
  - assert (map_fold (λ _ v acc, v + acc) 0 (<[k := v]> m)
              = v + map_fold (λ _ v acc, v + acc) 0 m) as H1.
    { apply (map_fold_insert_L (λ _ v acc, v + acc)); [intros; lia | done]. }
    lia.
Qed.

Lemma tickets_cons (ev : Event) (events : list Event) :
  tickets (ev :: events)
    = (if decide (ev_type ev = "TICKET_CREATED") then 1 else 0)
      + tickets events.
Proof.
  unfold tickets. rewrite filter_cons.
  destruct (decide (ev_type ev = "TICKET_CREATED")); simpl; lia.
Qed.

Lemma tickets_of_cons (p : string) (ev : Event) (events : list Event) :
  tickets_of p (ev :: events)
    = (if decide (ev_type ev = "TICKET_CREATED" ∧ ev_provider ev = p)
       then 1 else 0) + tickets_of p events.
Proof.
  unfold tickets_of. rewrite filter_cons.
  destruct (decide (ev_type ev = "TICKET_CREATED" ∧ ev_provider ev = p));
    simpl; lia.
Qed.

Lemma tickets_of_nonneg (p : string) (events : list Event) :
  0 ≤ tickets_of p events.
Proof. unfold tickets_of. lia. Qed.

Lemma count_event_effect (t : Z) (m : gmap string Z) (ev : Event) :
  (count_event (t, m) ev).1
    = t + (if decide (ev_type ev = "TICKET_CREATED") then 1 else 0) ∧
  sum_values (count_event (t, m) ev).2
    = sum_values m + (if decide (ev_type ev = "TICKET_CREATED") then 1 else 0) ∧
  ∀ p, (count_event (t, m) ev).2 !! p
       = if decide (ev_type ev = "TICKET_CREATED" ∧ ev_provider ev = p)
         then Some (default 0 (m !! p) + 1) else m !! p.
Proof.
  unfold count_event.
  destruct (decide (ev_type ev = "TICKET_CREATED")) as [Hty|Hty]; simpl.
  - split; [done|]. split; [rewrite sum_values_insert; lia|]. intros p.
    destruct (decide (ev_provider ev = p)) as [<-|Hne].
    + rewrite lookup_insert_eq. by rewrite decide_True.
    + rewrite lookup_insert_ne by done. rewrite decide_False; [done|].
      by intros [_ ?].
  - split; [lia|]. split; [lia|]. intros p. rewrite decide_False; [done|].
    by intros [? _].
Qed.

Lemma fold_count_event (events : list Event) : ∀ (acc : Z * gmap string Z),
  (fold_left count_event events acc).1 = acc.1 + tickets events ∧
  sum_values (fold_left count_event events acc).2
    = sum_values acc.2 + tickets events ∧
  ∀ p, (fold_left count_event events acc).2 !! p
       = match acc.2 !! p with
         | Some x => Some (x + tickets_of p events)
         | None => if decide (tickets_of p events = 0) then None
                   else Some (tickets_of p events)
         end.
Proof.
  induction events as [|ev events IH]; intros [t m]; cbn [fold_left fst snd].
  - unfold tickets, tickets_of. simpl. split; [lia|]. split; [lia|].
    intros p. destruct (m !! p); [f_equal; lia | done].
  - destruct (IH (count_event (t, m) ev)) as (Htot & Hsum & Hby). clear IH.
    destruct (count_event_effect t m ev) as (Ht & Hs & Hm).
    rewrite Htot, Hsum, Ht, Hs, tickets_cons.
    split; [lia|]. split; [lia|]. intros p.
    rewrite Hby, Hm, tickets_of_cons.
    pose proof (tickets_of_nonneg p events).
    destruct (decide (ev_type ev = "TICKET_CREATED" ∧ ev_provider ev = p)).
    + destruct (m !! p) as [x|]; simpl.
      * first [done | f_equal; lia].
      * rewrite decide_False by lia. first [done | f_equal; lia].
    + destruct (m !! p) as [x|]; [first [done | f_equal; lia]|].
      destruct (decide (tickets_of p events = 0)) as [Hz|Hz].
      * rewrite decide_True by lia. done.
      * rewrite decide_False by lia. first [done | f_equal; lia].
Qed.

(** X14. [get_stats] counts the events of type "TICKET_CREATED" (and no
    other): [total_tickets] is their number, the entry of a provider in
    [by_provider] is the number of them with that provider, a provider with
    none has no entry, and the entries add up to the total. *)
Theorem get_stats_counts_tickets (events : list Event) :
  total_tickets (get_stats events) = tickets events ∧
  sum_values (by_provider (get_stats events))
    = total_tickets (get_stats events) ∧
  ∀ provider,
    by_provider (get_stats events) !! provider
      = if decide (tickets_of provider events = 0) then None
        else Some (tickets_of provider events).
Proof.
  destruct (fold_count_event events (0, ∅)) as (Htot & Hsum & Hby).
  unfold get_stats. simpl in *. split; [lia|]. split.
  - rewrite Hsum, Htot. unfold sum_values. rewrite map_fold_empty. lia.
  - intros p. rewrite Hby. by rewrite lookup_empty.
Qed.

(** X15. [recent_events] is the tail of the log: the whole log while it has
    at most ten events, its last ten after that, in the order logged; and
    the event just logged is always the last of them. *)
Theorem recent_events_are_the_last_ten (events : list Event) (now : string)
  (event_type provider : string) (details : option pydict) :
  length (recent_events (get_stats events)) = Nat.min 10 (length events) ∧
  (∃ older, events = older ++ recent_events (get_stats events)) ∧
  (∃ logged,
     last (recent_events
             (get_stats (log_event now events event_type provider details)))
       = Some logged ∧
     ev_type logged = event_type ∧ ev_provider logged = provider ∧
     ev_timestamp logged = now).
Proof.
  unfold get_stats. cbn [recent_events].
  split; [rewrite length_drop; lia|]. split.
  - exists (take (length events - 10) events). by rewrite take_drop.
  - unfold log_event. rewrite drop_app_le by (rewrite length_app; simpl; lia).
    rewrite last_snoc. eexists. split; [reflexivity|]. done.
Qed.

(** X16. Logging an event adds 1 to [total_tickets] when its type is
    exactly "TICKET_CREATED" and leaves the total as it was for any other
    type; it never removes an event from the log. *)
Theorem log_event_and_total (events : list Event) (now : string)
  (event_type provider : string) (details : option pydict) :
  total_tickets (get_stats (log_event now events event_type provider details))
    = total_tickets (get_stats events)
      + (if decide (event_type = "TICKET_CREATED") then 1 else 0) ∧
  take (length events) (log_event now events event_type provider details)
    = events.
Proof.
  split.
  - unfold get_stats. cbn [total_tickets].
    rewrite !(proj1 (fold_count_event _ (0, ∅))). unfold tickets, log_event.
    rewrite filter_app, length_app, filter_cons. simpl.
    destruct (decide (event_type = "TICKET_CREATED")); simpl; lia.
  - unfold log_event. by rewrite take_app_length.
Qed.

End AnalyticsFacts.

(* ===================================================================== *)
(** * The ticket adapters ([app/components/integrations]) *)
(* ===================================================================== *)
Module Integrations.
Import Orchestrator.

(** [str.upper()] and [str.lower()], on the ASCII letters. *)
Definition upper_char (c : ascii) : ascii :=
  let n := N_of_ascii c in
  if ((97 <=? n) && (n <=? 122))%N then ascii_of_N (n - 32) else c.

Definition lower_char (c : ascii) : ascii :=
  let n := N_of_ascii c in
  if ((65 <=? n) && (n <=? 90))%N then ascii_of_N (n + 32) else c.

Fixpoint upper (s : string) : string :=
  match s with
  | EmptyString => EmptyString
  | String c s' => String (upper_char c) (upper s')
  end.

Fixpoint lower (s : string) : string :=
  match s with
  | EmptyString => EmptyString
  | String c s' => String (lower_char c) (lower s')
  end.

(** [str(n)] for an int. *)
Definition str_of_int (n : Z) : string := pretty n.

(** The concrete adapter classes of [providers.py]. *)
Inductive Adapter :=
| HubSpotAdapter
| JiraAdapter
| ZendeskAdapter
| SalesforceAdapter.

(** [TicketAdapterFactory.get_adapter]:
<<
    adapter_class = providers.get(provider_name)
    if not adapter_class:
        raise ValueError(f"Unsupported Provider: {provider_name}")
    return adapter_class()
>> *)
Definition get_adapter (provider_name : string) : result Adapter :=
  if decide (provider_name = "HubSpot") then Ok HubSpotAdapter
  else if decide (provider_name = "Jira") then Ok JiraAdapter
  else if decide (provider_name = "Zendesk") then Ok ZendeskAdapter
  else if decide (provider_name = "Salesforce") then Ok SalesforceAdapter
  else Raise (Exn ("Unsupported Provider: " +:+ provider_name)).

(** [create_ticket]. [rand] is what [random.randint] drew and [uuid] is
    [str(uuid.uuid4())]; [title] and [description] are not used by any
    adapter. *)
Definition create_ticket (a : Adapter) (rand : Z) (uuid : string)
  (title description priority : string) : pydict :=
  match a with
  | HubSpotAdapter =>
      let ticket_id := "HS-" +:+ str_of_int rand in
      [("provider", PStr "HubSpot"); ("id", PStr ticket_id);
       ("status", PStr "OPEN"); ("priority", PStr (upper priority));
       ("link", PStr ("https://app.hubspot.com/tickets/" +:+ ticket_id))]
  | JiraAdapter =>
      let ticket_id := "PROJ-" +:+ str_of_int rand in
      [("provider", PStr "Jira"); ("id", PStr ticket_id);
       ("status", PStr "TO DO"); ("priority", PStr priority);
       ("link", PStr ("https://jira.atlassian.com/browse/" +:+ ticket_id))]
  | ZendeskAdapter =>
      let ticket_id := str_of_int rand in
      [("provider", PStr "Zendesk"); ("id", PStr ticket_id);
       ("status", PStr "new"); ("priority", PStr (lower priority));
       ("link", PStr ("https://support.zendesk.com/tickets/" +:+ ticket_id))]
  | SalesforceAdapter =>
      let ticket_id := "500" +:+ String.substring 0 15 uuid in
      [("provider", PStr "Salesforce"); ("id", PStr ticket_id);
       ("status", PStr "New"); ("priority", PStr priority);
       ("link", PStr ("https://salesforce.com/" +:+ ticket_id))]
  end.

(** [get_status] *)
Definition get_status (a : Adapter) (external_id : string) : string := "OPEN".

End Integrations.

Section IntegrationsFacts.
Import Orchestrator Integrations.

Definition supported_providers : list string :=
  ["HubSpot"; "Jira"; "Zendesk"; "Salesforce"].

(** X17. The factory answers for exactly four names, spelled as listed:
    for each it returns an adapter whose tickets name that provider; for
    any other string (another case, the empty string) it raises ValueError
    with the message "Unsupported Provider: " followed by the string. *)
Theorem factory_knows_four_providers (name : string) :
  (name ∈ supported_providers →
   ∃ a, get_adapter name = Ok a ∧
        ∀ rand uuid title description priority,
          dict_get "provider"
            (create_ticket a rand uuid title description priority)
            = Some (PStr name)) ∧
  (name ∉ supported_providers →
   get_adapter name = Raise (Exn ("Unsupported Provider: " +:+ name))).
Proof.
  unfold supported_providers, get_adapter. split.
  - intros Hin. repeat (apply elem_of_cons in Hin as [->|Hin]);
      [| | | |by apply elem_of_nil in Hin]; eexists; split;
      try reflexivity; done.
  - intros Hout. repeat (rewrite decide_False; [|intros ->; set_solver]).
    done.
Qed.

(** X18. Every ticket, of every adapter, has the keys [provider], [id],
    [status], [priority] and [link] (so the three the base class promises).
    Its provider is the name under which the factory hands out the adapter,
    and its link is the ticket address of that provider
    (https://app.hubspot.com/tickets/ for HubSpot,
    https://jira.atlassian.com/browse/ for Jira,
    https://support.zendesk.com/tickets/ for Zendesk and
    https://salesforce.com/ for Salesforce) followed by the id of the
    ticket, so the id can be read back off the link. *)
Theorem ticket_has_id_status_and_link (a : Adapter) (rand : Z)
  (uuid title description priority : string) :
  let ticket := create_ticket a rand uuid title description priority in
  ticket.*1 = ["provider"; "id"; "status"; "priority"; "link"] ∧
  ∃ provider id status base,
    dict_get "provider" ticket = Some (PStr provider) ∧
    get_adapter provider = Ok a ∧
    dict_get "id" ticket = Some (PStr id) ∧
    dict_get "status" ticket = Some (PStr status) ∧
    dict_get "link" ticket = Some (PStr (base +:+ id)) ∧
    (provider, base)
      = match a with
        | HubSpotAdapter => ("HubSpot", "https://app.hubspot.com/tickets/")
        | JiraAdapter => ("Jira", "https://jira.atlassian.com/browse/")
        | ZendeskAdapter => ("Zendesk", "https://support.zendesk.com/tickets/")
        | SalesforceAdapter => ("Salesforce", "https://salesforce.com/")
        end ∧
    startswith "https://" base = true ∧
    (∀ link, dict_get "link" ticket = Some (PStr link) →
       String.substring (String.length base) (String.length id) link = id).
Proof.
  assert (∀ b i : string,
            String.substring (String.length b) (String.length i) (b +:+ i) = i)
    as Hsuffix.
  { induction b as [|c b IH]; intros i; [|apply IH].
    change ("" +:+ i) with i. cbn [String.length].
    induction i as [|c i IH]; simpl; [done | by rewrite IH]. }
  destruct a; cbn zeta; (split; [reflexivity|]).
  - exists "HubSpot", ("HS-" +:+ str_of_int rand), "OPEN",
      "https://app.hubspot.com/tickets/".
    do 7 (split; [reflexivity|]).
    intros link Hlink. injection Hlink as <-. apply Hsuffix.
  - exists "Jira", ("PROJ-" +:+ str_of_int rand), "TO DO",
      "https://jira.atlassian.com/browse/".
    do 7 (split; [reflexivity|]).
    intros link Hlink. injection Hlink as <-. apply Hsuffix.
  - exists "Zendesk", (str_of_int rand), "new",
      "https://support.zendesk.com/tickets/".
    do 7 (split; [reflexivity|]).
    intros link Hlink. injection Hlink as <-. apply Hsuffix.
  - exists "Salesforce", ("500" +:+ String.substring 0 15 uuid), "New",
      "https://salesforce.com/".
    do 7 (split; [reflexivity|]).
    intros link Hlink. injection Hlink as <-. apply Hsuffix.
Qed.


Lemma lower_upper_char (c : ascii) : lower_char (upper_char c) = lower_char c.
Proof.
  unfold upper_char, lower_char.
  destruct ((97 <=? N_of_ascii c) && (N_of_ascii c <=? 122))%N eqn:Hlow.
  - apply andb_true_iff in Hlow as [H1%N.leb_le H2%N.leb_le].
    rewrite N_ascii_embedding by lia.
    assert ((65 <=? N_of_ascii c - 32) && (N_of_ascii c - 32 <=? 90) = true)%N
      as -> by (apply andb_true_iff; split; apply N.leb_le; lia).
    assert ((65 <=? N_of_ascii c) && (N_of_ascii c <=? 90) = false)%N as ->.
    { apply andb_false_iff. right. apply N.leb_gt. lia. }
    rewrite <- (ascii_N_embedding c) at 2. f_equal. lia.
  - done.
Qed.


Lemma lower_upper (s : string) : lower (upper s) = lower s.
Proof.
  induction s as [|c s IH]; simpl; [done|]. by rewrite lower_upper_char, IH.
Qed.


(** What the libraries can hand to an adapter: a number within the bounds
    it passes to [random.randint], a UUID string of 15 characters at
    least. *)
Definition drawn (a : Adapter) (rand : Z) (uuid : string) : Prop :=
  match a with
  | HubSpotAdapter => 1000 ≤ rand ≤ 9999
  | JiraAdapter => 100 ≤ rand ≤ 999
  | ZendeskAdapter => 10000 ≤ rand ≤ 99999
  | SalesforceAdapter => (15 ≤ String.length uuid)%nat
  end.

Lemma pretty_N_go_digits (k : nat) : ∀ (x : N) (s : string),
  (10 ^ N.of_nat k ≤ x < 10 ^ N.of_nat (S k))%N →
  String.length (pretty_N_go x s) = (S k + String.length s)%nat.
Proof.
  induction k as [|k IH]; intros x s Hx.
  - change (10 ^ N.of_nat 0)%N with 1%N in Hx.
    change (10 ^ N.of_nat 1)%N with 10%N in Hx.
    rewrite pretty_N_go_step by lia.
    assert (x `div` 10 = 0)%N as -> by (apply N.div_small; lia).
    by rewrite pretty_N_go_0.
  - rewrite pretty_N_go_step.
    2: { assert (0 < 10 ^ N.of_nat (S k))%N; [|lia].
         apply N.neq_0_lt_0, N.pow_nonzero. lia. }
    rewrite IH; [simpl; lia|].
    rewrite !Nat2N.inj_succ, !N.pow_succ_r' in Hx.
    rewrite Nat2N.inj_succ, N.pow_succ_r'.
    split.
    + apply N.div_le_lower_bound; lia.
    + apply N.Div0.div_lt_upper_bound; lia.
Qed.

(** [str(n)] of a number with [k + 1] digits has [k + 1] characters. *)
Lemma str_of_int_digits (k : nat) (z : Z) :
  10 ^ Z.of_nat k ≤ z < 10 ^ Z.of_nat (S k) →
  String.length (str_of_int z) = S k.
Proof.
  intros Hz. assert (0 < 10 ^ Z.of_nat k) by (apply Z.pow_pos_nonneg; lia).
  destruct z as [|p|p]; try lia.
  unfold str_of_int, pretty, pretty_Z.
  unfold pretty, pretty_positive, pretty, pretty_N.
  rewrite decide_False by done.
  rewrite (pretty_N_go_digits k); [simpl; lia|].
  assert (Z.of_N (10 ^ N.of_nat k) = 10 ^ Z.of_nat k) as H1
    by (rewrite N2Z.inj_pow, nat_N_Z; done).
  assert (Z.of_N (10 ^ N.of_nat (S k)) = 10 ^ Z.of_nat (S k)) as H2
    by (rewrite N2Z.inj_pow, nat_N_Z; done).
  lia.
Qed.

Lemma append_length (a b : string) :
  String.length (a +:+ b) = (String.length a + String.length b)%nat.
Proof. induction a as [|c a IH]; simpl; [done | by rewrite IH]. Qed.

Lemma prefix_length (n : nat) : ∀ s : string,
  (n ≤ String.length s)%nat → String.length (String.substring 0 n s) = n.
Proof.
  induction n as [|n IH]; intros [|c s] Hs; simpl in *; try done; try lia.
  rewrite IH; [done | lia].
Qed.

(** X20. The ids the adapters make have a fixed shape: "HS-" and four
    digits for HubSpot, "PROJ-" and three digits for Jira, five digits for
    Zendesk, "500" and the first fifteen characters of the UUID for
    Salesforce, so 7, 8, 5 and 18 characters. *)
Theorem ticket_id_has_a_fixed_shape (a : Adapter) (rand : Z)
  (uuid title description priority : string) :
  drawn a rand uuid →
  ∃ prefix rest,
    dict_get "id" (create_ticket a rand uuid title description priority)
      = Some (PStr (prefix +:+ rest)) ∧
    prefix = match a with
             | HubSpotAdapter => "HS-"
             | JiraAdapter => "PROJ-"
             | ZendeskAdapter => ""
             | SalesforceAdapter => "500"
             end ∧
    String.length rest = match a with
                         | HubSpotAdapter => 4%nat
                         | JiraAdapter => 3%nat
                         | ZendeskAdapter => 5%nat
                         | SalesforceAdapter => 15%nat
                         end ∧
    rest = match a with
           | SalesforceAdapter => String.substring 0 15 uuid
           | _ => str_of_int rand
           end.
Proof.
  intros Hdrawn. destruct a; simpl in Hdrawn.
  - exists "HS-", (str_of_int rand). repeat split.
    apply (str_of_int_digits 3). simpl. lia.
  - exists "PROJ-", (str_of_int rand). repeat split.
    apply (str_of_int_digits 2). simpl. lia.
  - exists "", (str_of_int rand). repeat split.
    apply (str_of_int_digits 4). simpl. lia.
  - exists "500", (String.substring 0 15 uuid). repeat split.
    by apply prefix_length.
Qed.

Lemma ticket_id_has_a_fixed_shape_witness :
  drawn HubSpotAdapter 4821 "" ∧
  ∃ prefix rest,
    dict_get "id" (create_ticket HubSpotAdapter 4821 "" "t" "d" "High")
      = Some (PStr (prefix +:+ rest)) ∧
    prefix = "HS-" ∧ String.length rest = 4%nat ∧ rest = str_of_int 4821.
Proof.
  split; [simpl; lia|].
  apply (ticket_id_has_a_fixed_shape HubSpotAdapter 4821 "" "t" "d" "High").
  simpl. lia.
Defined.

End IntegrationsFacts.

(** ** The report files and the preview *)
Section Reports.
Import Visited Scorer Robots Worker Orchestrator.

(** X21. A crawl that returns "success" writes files only when
    [save_folder] is a non-empty string, and then exactly two, in this
    order: [crawl_report.json], whose [pages] are the [database_records] of
    the summary and whose [pages_crawled] is their number, and
    [crawled_content.txt], whose content is the [full_text] of the summary.
    [saved_files] lists the paths of the files written. *)
Theorem report_files_match_the_summary (E : Env) (db : list Row)
  (sched : list nat) (url : string) (save_folder : option string)
  (simulate recursive : bool) (max_depth : Z) (summary : pydict)
  (eff : Effects) :
  crawl_url E db sched url save_folder simulate recursive max_depth
    = (Returned summary, eff) →
  dict_get "status" summary = Some (PStr "success") →
  ∃ (rows : list Row) (full : string),
    dict_get "full_text" summary = Some (PStr full) ∧
    dict_get "database_records" summary = Some (PList (row_dict <$> rows)) ∧
    dict_get "saved_files" summary
      = Some (PList (PStr <$> (files_written eff).*1)) ∧
    files_written eff
      = match save_folder with
        | Some (String c folder) =>
            [(path_join E (String c folder) "crawl_report.json",
              PDict [("url", PStr url);
                     ("session_id", PStr (new_session_id E));
                     ("timestamp", PStr (start_iso E));
                     ("duration_seconds", PFloat (elapsed_seconds E));
                     ("pages_crawled", PInt (Z.of_nat (length rows)));
                     ("pages", PList (row_dict <$> rows))]);
             (path_join E (String c folder) "crawled_content.txt", PStr full)]
        | Some EmptyString | None => []
        end.
Proof.
  unfold crawl_url.
  destruct (_get_robots_parser E url) as [rp|e]; [|done].
  destruct (is_allowed E url rp); cbn [negb].
  - destruct (unfinished _ =? 0); [|done].
    intros [= <- <-] _. eexists _, _.
    split; [reflexivity|]. split; [reflexivity|]. split; [reflexivity|].
    cbn [files_written]. unfold save_reports.
    by destruct save_folder as [[|c folder]|].
  - by intros [= <- <-].
Qed.

Lemma report_files_match_the_summary_witness :
  ∃ summary eff,
    crawl_url Demo.scoring_env [] [0; 0]%nat home (Some "out") false false 1
      = (Returned summary, eff) ∧
    (files_written eff).*1
      = ["out/crawl_report.json"; "out/crawled_content.txt"] ∧
    ∃ (rows : list Row) (full : string),
      dict_get "full_text" summary = Some (PStr full) ∧
      dict_get "database_records" summary = Some (PList (row_dict <$> rows)) ∧
      dict_get "saved_files" summary
        = Some (PList (PStr <$> (files_written eff).*1)) ∧
      files_written eff
        = [("out/crawl_report.json",
            PDict [("url", PStr home);
                   ("session_id", PStr (new_session_id Demo.scoring_env));
                   ("timestamp", PStr (start_iso Demo.scoring_env));
                   ("duration_seconds",
                    PFloat (elapsed_seconds Demo.scoring_env));
                   ("pages_crawled", PInt (Z.of_nat (length rows)));
                   ("pages", PList (row_dict <$> rows))]);
           ("out/crawled_content.txt", PStr full)].
Proof.
  eexists _, _. split; [vm_compute; reflexivity|]. split; [reflexivity|].
  eapply (report_files_match_the_summary Demo.scoring_env [] [0; 0]%nat home
            (Some "out") false false 1).
  - vm_compute. reflexivity.
  - reflexivity.
Defined.

Lemma str_app_cons (c : ascii) (a b : string) :
  String c a +:+ b = String c (a +:+ b).
Proof. reflexivity. Qed.

Lemma str_app_nil_r (a : string) : a +:+ "" = a.
Proof.
  induction a as [|c a IH]; [done|]. by rewrite str_app_cons, IH.
Qed.

Lemma str_app_assoc (a b c : string) : (a +:+ b) +:+ c = a +:+ (b +:+ c).
Proof.
  induction a as [|x a IH]; [done|]. by rewrite !str_app_cons, IH.
Qed.

Lemma full_text_from (rows : list Row) : ∀ start : string,
  fold_left
    (λ full r, full +:+ nl +:+ nl +:+ "== " +:+ res_title (row_result r)
                    +:+ " ==" +:+ nl +:+ res_content (row_result r))
    rows start
  = start +:+ full_text rows.
Proof.
  unfold full_text. induction rows as [|r rows IH]; intros start;
    cbn [fold_left].
  - by rewrite str_app_nil_r.
  - rewrite IH. rewrite (IH ("" +:+ _)). by rewrite str_app_assoc.
Qed.

(** X22. [full_text] is the concatenation, row after row, of one block per
    row (two newlines, the title between "== " and " ==", a newline, the
    content); so the text of a table is the text of its first rows followed
    by the text of the rest, and it is empty for no rows. *)
Theorem full_text_is_a_concatenation (rows more : list Row) (r : Row) :
  full_text [] = "" ∧
  full_text [r]
    = nl +:+ nl +:+ "== " +:+ res_title (row_result r) +:+ " ==" +:+ nl
      +:+ res_content (row_result r) ∧
  full_text (rows ++ more) = full_text rows +:+ full_text more.
Proof.
  split; [reflexivity|]. split; [reflexivity|].
  unfold full_text at 1. rewrite fold_left_app.
  fold (full_text rows). apply full_text_from.
Qed.

End Reports.

(** ** The shutdown *)
Section Shutdown.
Import Visited Scorer Robots Worker Orchestrator.
Context (E : Env) (session_id : string) (rp : RobotFileParser E).

(** Before the sentinels are put: six workers, none past its loop, and no
    sentinel in the frontier. *)
Definition running (p : Pool) : Prop :=
  length p.1 = NUM ∧
  Forall (λ w, w ≠ Exited) p.1 ∧
  Forall (λ x, x ≠ None) (queue p.2).

Lemma enqueue_children_no_sentinel (it : FrontierItem) (targets : list string) :
  ∀ sh, Forall (λ x, x ≠ None) (queue sh) →
        Forall (λ x, x ≠ None) (queue (enqueue_children it targets sh)).
Proof.
  intros sh Hq. rewrite enqueue_children_queue. apply Forall_app.
  split; [done|]. apply Forall_fmap, Forall_forall. by intros t _.
Qed.

Lemma worker_step_running (w : Phase) (sh : Shared) :
  w ≠ Exited → Forall (λ x, x ≠ None) (queue sh) →
  (worker_step E session_id rp w sh).1 ≠ Exited ∧
  Forall (λ x, x ≠ None) (queue (worker_step E session_id rp w sh).2).
Proof.
  intros Hw Hq. destruct w as [|it|it|]; simpl; [| | |done].
  - destruct (queue sh) as [|[it|] q] eqn:Hqueue; simpl.
    + split; [done|]. by rewrite Hqueue.
    + apply Forall_cons in Hq as [_ Hq]. unfold check_and_mark.
      by destruct (decide (item_url it ∈ visited sh)).
    + by apply Forall_cons in Hq as [? _].
  - destruct (goto_page E (item_url it)) as [[title content]|e]; simpl;
      [|done]. by destruct (item_depth it <? item_max_depth it).
  - destruct (extract_targets E rp it (visited sh)) as [targets|e]; simpl;
      [|done]. split; [done|]. by apply enqueue_children_no_sentinel.
Qed.

Lemma pool_step_running (i : nat) (p : Pool) :
  running p → running (pool_step E session_id rp i p).
Proof.
  intros (Hlen & Hws & Hq). unfold pool_step.
  destruct (p.1 !! i) as [w|] eqn:Hw; [|done].
  assert (w ≠ Exited) as Hne.
  { eapply (proj1 (Forall_forall _ _) Hws). by eapply list_elem_of_lookup_2. }
  destruct (worker_step_running w p.2 Hne Hq) as [Hw' Hq'].
  destruct (worker_step E session_id rp w p.2) as [w' sh']. simpl in *.
  unfold running. cbn [fst snd].
  split; [by rewrite length_insert|]. split; [by apply Forall_insert | done].
Qed.

Lemma in_flight_zero (p : Pool) :
  in_flight_counted p → unfinished p.2 = 0 →
  queue p.2 = [] ∧ Forall (λ w, busy w = 0) p.1.
Proof.
  unfold in_flight_counted. intros Hinv Hzero.
  pose proof (total_nonneg busy p.1) as Hnn.
  assert (0 ≤ total busy p.1) by (apply Hnn; by intros []).
  split.
  - destruct (queue p.2); [done|]. simpl in Hinv. lia.
  - apply total_zero; [by intros []|]. lia.
Qed.

Lemma all_idle (ws : list Phase) :
  length ws = NUM → Forall (λ w, w ≠ Exited) ws →
  Forall (λ w, busy w = 0) ws → ws = replicate NUM Idle.
Proof.
  intros Hlen Hne Hbusy. rewrite <- Hlen. clear Hlen.
  induction ws as [|w ws IH]; [done|].
  apply Forall_cons in Hne as [Hw Hne]. apply Forall_cons in Hbusy as [Hb Hbusy].
  simpl. rewrite <- IH by done. by destruct w.
Qed.

Lemma shutdown_of_idle_pool (sh : Shared) :
  queue sh = [] →
  (shutdown E session_id rp (replicate NUM Idle, sh)).1
    = replicate NUM Exited ∧
  queue (shutdown E session_id rp (replicate NUM Idle, sh)).2 = [] ∧
  unfinished (shutdown E session_id rp (replicate NUM Idle, sh)).2
    = unfinished sh ∧
  db_queue (shutdown E session_id rp (replicate NUM Idle, sh)).2
    = db_queue sh ∧
  goto_log (shutdown E session_id rp (replicate NUM Idle, sh)).2
    = goto_log sh.
Proof.
  destruct sh as [vis q unf dbq log deq]. simpl. intros ->.
  unfold shutdown, run_schedule, pool_step. simpl.
  repeat split; lia.
Qed.

(** X23. When [queue.join()] returns, the shutdown ends the pool cleanly:
    each of the six workers takes one sentinel and leaves its loop, no
    sentinel and no item is left in the frontier, the count of unfinished
    items is back at 0, and no record is put and no page fetched on the
    way. *)
Theorem shutdown_exits_every_worker (sched : list nat) (url : string)
  (recursive : bool) (max_depth : Z) :
  let p := run_schedule E session_id rp sched
             (initial_pool url recursive max_depth) in
  unfinished p.2 = 0 →
  (shutdown E session_id rp p).1 = replicate NUM Exited ∧
  queue (shutdown E session_id rp p).2 = [] ∧
  unfinished (shutdown E session_id rp p).2 = 0 ∧
  db_queue (shutdown E session_id rp p).2 = db_queue p.2 ∧
  goto_log (shutdown E session_id rp p).2 = goto_log p.2.
Proof.
  intros p Hjoin.
  assert (in_flight_counted p) as Hinv.
  { apply (run_schedule_invariant E session_id rp in_flight_counted);
      [apply pool_step_in_flight|].
    unfold in_flight_counted, initial_pool. cbn [fst snd].
    by rewrite total_replicate_zero. }
  assert (running p) as (Hlen & Hne & _).
  { apply (run_schedule_invariant E session_id rp running);
      [apply pool_step_running|].
    split; [done|]. split; simpl; unfold NUM; repeat constructor; done. }
  destruct (in_flight_zero p Hinv Hjoin) as [Hq Hbusy].
  pose proof (all_idle p.1 Hlen Hne Hbusy) as Hidle.
  destruct p as [ws sh]. cbn [fst snd] in *. subst ws.
  destruct (shutdown_of_idle_pool sh Hq) as (H1 & H2 & H3 & H4 & H5).
  rewrite H1, H2, H3, H4, H5. done.
Qed.

End Shutdown.

Section ShutdownRun.
Import Visited Scorer Robots Worker Orchestrator.

Lemma shutdown_exits_every_worker_witness :
  unfinished
    (run_schedule Demo.scoring_env "s" (open_policy Demo.scoring_env)
       [0; 0]%nat (initial_pool home false 1)).2 = 0 ∧
  (shutdown Demo.scoring_env "s" (open_policy Demo.scoring_env)
     (run_schedule Demo.scoring_env "s" (open_policy Demo.scoring_env)
        [0; 0]%nat (initial_pool home false 1))).1
    = replicate NUM Exited.
Proof.
  split; [reflexivity|].
  apply (shutdown_exits_every_worker Demo.scoring_env "s"
           (open_policy Demo.scoring_env) [0; 0]%nat home false 1).
  reflexivity.
Defined.

End ShutdownRun.
